(** * PrimeVis: the prime generation and classification engine

    A shallow embedding of [prime_visualizer/core/prime_generator.py],
    [prime_visualizer/core/prime_classifier.py] and the grid and statistics
    part of [prime_visualizer/core/image_generator.py], with the dots drawn by
    [draw_visualization], the merge of [ConfigManager.update_config] and the
    sieve of the first script [PrimeVis.py], followed by the properties of the
    engine.

    Conventions of the embedding.
    - Python [int] is [Z]; [//] and [%] are [Z.div] and [Z.modulo] (both floor,
      the remainder has the sign of the divisor, as in Python).
    - A Python [set] of ints is a [gset Z]; a [dict] keyed by labels is a
      [gmap string Z]; the sieve array is a [list bool] updated by index.
    - [for] loops over a [range] are folds over the list of its values;
      [while] loops are recursive functions on a fuel counter, and each one
      comes with a lemma that the fuel handed to it is never used up.
    - [math.sqrt] followed by [int] or [is_integer] is the exact integer
      square root ([Z.sqrt]) and the exact perfect-square test; [math.log2]
      of a power of two is [Z.log2].  Double-precision arithmetic is exact on
      these operations for arguments below [2^52], the range of grids the
      engine is meant for.
    - Code that can raise returns an [outcome]. *)

From Stdlib Require Import ZArith Zdivisibility QArith Lia Ascii String.
From stdpp Require Import base list gmap strings sorting.

#[local] Open Scope Z_scope.

(** ** Outcomes: a value, a Python exception, or a loop that used up its fuel *)

Inductive exn : Type :=
  | ValueError
  | ZeroDivisionError.

Inductive outcome (A : Type) : Type :=
  | Ret (a : A)
  | Raise (e : exn)
  | OutOfFuel.

Arguments Ret {A} a.
Arguments Raise {A} e.
Arguments OutOfFuel {A}.

#[global] Instance outcome_ret : MRet outcome := fun _ a => Ret a.

#[global] Instance outcome_bind : MBind outcome := fun _ _ f m =>
  match m with
  | Ret a => f a
  | Raise e => Raise e
  | OutOfFuel => OutOfFuel
  end.

(** ** Python builtins used by the engine *)

Module Py.

(** [range(start, stop)] *)
Definition range2 (start stop : Z) : list Z := seqZ start (stop - start).

(** [range(start, stop, step)] for a positive [step] (the only use is the
    inner sieve loop, whose step is at least 2). *)
Definition range3 (start stop step : Z) : list Z :=
  (fun k => start + k * step) <$> seqZ 0 ((stop - start + step - 1) / step).

(** [int(math.sqrt(x))] *)
Definition int_sqrt (x : Z) : Z := Z.sqrt x.

(** [math.sqrt(x).is_integer()] *)
Definition sqrt_is_integer (x : Z) : bool := Z.sqrt x * Z.sqrt x =? x.

(** [a % b] and [a // b] *)
Definition mod_ (a b : Z) : outcome Z :=
  if b =? 0 then Raise ZeroDivisionError else Ret (a mod b).

Definition floordiv (a b : Z) : outcome Z :=
  if b =? 0 then Raise ZeroDivisionError else Ret (a / b).

Definition digit_char (d : Z) : ascii := ascii_of_nat (48 + Z.to_nat d).

(** The decimal digits of a non-negative [n], most significant first. *)
Fixpoint digits_loop (fuel : nat) (n : Z) (acc : list ascii) : list ascii :=
  match fuel with
  | O => acc
  | S fuel' =>
      let acc' := digit_char (n mod 10) :: acc in
      if n <? 10 then acc' else digits_loop fuel' (n / 10) acc'
  end.

Definition digits (n : Z) : list ascii :=
  digits_loop (S (Z.to_nat (Z.log2 n))) n [].

(** [str(n)] as the list of its characters. *)
Definition str (n : Z) : list ascii :=
  if n <? 0 then "-"%char :: digits (- n) else digits n.

(** [int(c)] for a one-character string. *)
Definition int_of_char (c : ascii) : outcome Z :=
  let k := Z.of_nat (nat_of_ascii c) in
  if (48 <=? k) && (k <=? 57) then Ret (k - 48) else Raise ValueError.

Fixpoint int_of_digits (s : list ascii) (acc : Z) : outcome Z :=
  match s with
  | [] => Ret acc
  | c :: s' => d ← int_of_char c; int_of_digits s' (acc * 10 + d)
  end.

(** [int(s)] for a string built from the characters of [str]: an optional
    sign followed by at least one digit; anything else is a [ValueError]. *)
Definition int_of_str (s : list ascii) : outcome Z :=
  match s with
  | [] => Raise ValueError
  | c :: s' =>
      if Ascii.eqb c "-" then
        match s' with
        | [] => Raise ValueError
        | _ => v ← int_of_digits s' 0; Ret (- v)
        end
      else int_of_digits s 0
  end.

End Py.

(** ** prime_generator.py *)

Module PrimeGenerator.

(** The [while i * i <= n] loop of [is_prime]; [None] is fuel used up. *)
Fixpoint is_prime_loop (fuel : nat) (n i : Z) : option bool :=
  match fuel with
  | O => None
  | S fuel' =>
      if i * i <=? n then
        if (n mod i =? 0) || (n mod (i + 2) =? 0) then Some false
        else is_prime_loop fuel' n (i + 6)
      else Some true
  end.

Definition is_prime_fuel (n : Z) : nat := S (Z.to_nat (Z.sqrt n)).

Definition is_prime (n : Z) : bool :=
  if n <=? 1 then false
  else if n <=? 3 then true
  else if (n mod 2 =? 0) || (n mod 3 =? 0) then false
  else
    match is_prime_loop (is_prime_fuel n) n 5 with
    | Some b => b
    | None => false
    end.

(** [sieve[i]]; every read of the source is inside the array. *)
Definition sieve_at (sieve : list bool) (i : Z) : bool :=
  match sieve !! Z.to_nat i with
  | Some b => b
  | None => false
  end.

(** [for j in range(i*i, limit + 1, i): sieve[j] = False] *)
Definition mark_multiples (limit i : Z) (sieve : list bool) : list bool :=
  foldl (fun s j => <[Z.to_nat j := false]> s) sieve
        (Py.range3 (i * i) (limit + 1) i).

(** The body of the outer loop. *)
Definition sieve_step (limit : Z) (sieve : list bool) (i : Z) : list bool :=
  if sieve_at sieve i then mark_multiples limit i sieve else sieve.

Definition sieve_init (limit : Z) : list bool :=
  <[1%nat := false]> (<[0%nat := false]> (replicate (Z.to_nat (limit + 1)) true)).

Definition run_sieve (limit : Z) : list bool :=
  foldl (sieve_step limit) (sieve_init limit)
        (Py.range2 2 (Py.int_sqrt limit + 1)).

Definition generate_primes (limit : Z) : list Z :=
  if limit <? 2 then []
  else
    let sieve := run_sieve limit in
    filter (fun i => sieve_at sieve i = true) (Py.range2 0 (limit + 1)).

Definition generate_primes_set (limit : Z) : gset Z :=
  list_to_set (generate_primes limit).

End PrimeGenerator.

(** ** prime_classifier.py *)

Module PrimeClassifier.
Import PrimeGenerator.

Definition is_twin_prime (n : Z) (primes_set : gset Z) : bool :=
  bool_decide (n ∈ primes_set)
  && (bool_decide (n - 2 ∈ primes_set) || bool_decide (n + 2 ∈ primes_set)).

Definition is_mersenne_prime (n : Z) : bool :=
  if negb (is_prime n) then false
  else
    let n_plus_1 := n + 1 in
    if negb (Z.land n_plus_1 (n_plus_1 - 1) =? 0) then false
    else
      let p := Z.log2 (n + 1) in
      is_prime p.

Definition is_safe_prime (n : Z) : bool :=
  (2 <? n) && is_prime n && is_prime ((n - 1) / 2).

Definition is_sophie_germain_prime (n : Z) : bool :=
  is_prime n && is_prime (2 * n + 1).

Definition is_palindromic_prime (n : Z) : bool :=
  is_prime n && bool_decide (Py.str n = reverse (Py.str n)).

(** [for i in range(1, len(str_n))] with its early [return False]. *)
Fixpoint circular_loop (str_n : list ascii) (indices : list Z) : outcome bool :=
  match indices with
  | [] => Ret true
  | i :: indices' =>
      rotated ← Py.int_of_str (drop (Z.to_nat i) str_n ++ take (Z.to_nat i) str_n);
      if negb (is_prime rotated) then Ret false
      else circular_loop str_n indices'
  end.

Definition is_circular_prime (n : Z) : outcome bool :=
  if negb (is_prime n) then Ret false
  else
    let str_n := Py.str n in
    if Z.of_nat (length str_n) =? 1 then Ret true
    else circular_loop str_n (Py.range2 1 (Z.of_nat (length str_n))).

(** [while factorial < n + 1 and i < 20].  The counter [i] starts at 1 and
    grows by one per round, so the guard [i < 20] stops the loop after at
    most 19 rounds: with 19 units of fuel the [O] branch is only reached
    when [i = 20], where the source leaves the loop and returns [False]. *)
Fixpoint factorial_loop (fuel : nat) (n factorial i : Z) : bool :=
  match fuel with
  | O => false
  | S fuel' =>
      if (factorial <? n + 1) && (i <? 20) then
        let factorial := factorial * i in
        if (n =? factorial - 1) || (n =? factorial + 1) then true
        else factorial_loop fuel' n factorial (i + 1)
      else false
  end.

Definition is_factorial_prime (n : Z) : bool :=
  if negb (is_prime n) then false
  else factorial_loop 19 n 1 1.

Definition is_perfect_square (x : Z) : bool :=
  let sqrt_x := Py.int_sqrt x in
  sqrt_x * sqrt_x =? x.

Definition is_fibonacci_prime (n : Z) : bool :=
  if negb (is_prime n) then false
  else is_perfect_square (5 * n * n + 4) || is_perfect_square (5 * n * n - 4).

Definition is_sexy_prime (n : Z) (primes_set : gset Z) : bool :=
  is_prime n
  && (bool_decide (n + 6 ∈ primes_set) || bool_decide (n - 6 ∈ primes_set)).

(** [m = (-3 + int(sqrt_discriminant)) / 6] is a true division: [m] is an
    integer when 6 divides the numerator, and its sign is the numerator's. *)
Definition is_cuban_prime (n : Z) : bool :=
  if negb (is_prime n) then false
  else
    let discriminant := 9 + 12 * (n - 1) in
    if negb (Py.sqrt_is_integer discriminant) then false
    else
      let numerator := -3 + Py.int_sqrt discriminant in
      (numerator mod 6 =? 0) && (0 <=? numerator).

(** [sum(int(digit) ** 2 for digit in str(n))] *)
Definition digit_square_sum (n : Z) : outcome Z :=
  ds ← mapM Py.int_of_char (Py.str n);
  Ret (foldr Z.add 0 ((fun d => d ^ 2) <$> ds)).

(** [while n != 1 and n not in seen]; returns the state at loop exit. *)
Fixpoint happy_loop (fuel : nat) (n : Z) (seen : gset Z) : outcome (Z * gset Z) :=
  match fuel with
  | O => OutOfFuel
  | S fuel' =>
      if bool_decide (n ≠ 1) && bool_decide (n ∉ seen) then
        n' ← digit_square_sum n;
        happy_loop fuel' n' ({[n]} ∪ seen)
      else Ret (n, seen)
  end.

Definition happy_fuel (n : Z) : nat := Z.to_nat (Z.max n 243) + 2.

Definition is_happy_number (n : Z) : outcome bool :=
  st ← happy_loop (happy_fuel n) n ∅;
  Ret (st.1 =? 1).

Definition is_happy_prime (n : Z) : outcome bool :=
  if is_prime n then is_happy_number n else Ret false.

Definition is_chen_prime (n : Z) : bool :=
  if negb (is_prime n) then false
  else
    let n_plus_2 := n + 2 in
    if is_prime n_plus_2 then true
    else if n_plus_2 <? 4 then false
    else
      match List.find (fun i => n_plus_2 mod i =? 0)
                      (Py.range2 2 (Py.int_sqrt n_plus_2 + 1)) with
      | Some i => is_prime i && is_prime (n_plus_2 / i)
      | None => false
      end.

Definition is_wieferich_prime (n : Z) : bool :=
  if negb (is_prime n) then false
  else bool_decide (n ∈ ({[1093; 3511]} : gset Z)).

Definition is_isolated_prime (n : Z) (primes_set : gset Z) : bool :=
  is_prime n
  && negb (bool_decide (n - 2 ∈ primes_set))
  && negb (bool_decide (n + 2 ∈ primes_set)).

Definition classify_prime (n : Z) (primes_set : gset Z) : outcome string :=
  if is_mersenne_prime n then Ret "mersenne_prime"%string
  else if is_factorial_prime n then Ret "factorial_prime"%string
  else if is_wieferich_prime n then Ret "wieferich_prime"%string
  else if is_fibonacci_prime n then Ret "fibonacci_prime"%string
  else if is_twin_prime n primes_set then Ret "twin_prime"%string
  else if is_sexy_prime n primes_set then Ret "sexy_prime"%string
  else if is_isolated_prime n primes_set then Ret "isolated_prime"%string
  else if is_safe_prime n then Ret "safe_prime"%string
  else if is_sophie_germain_prime n then Ret "sophie_germain_prime"%string
  else if is_chen_prime n then Ret "chen_prime"%string
  else if is_palindromic_prime n then Ret "palindromic_prime"%string
  else
    circular ← is_circular_prime n;
    if circular : bool then Ret "circular_prime"%string
    else if is_cuban_prime n then Ret "cuban_prime"%string
    else
      happy ← is_happy_prime n;
      if happy : bool then Ret "happy_prime"%string
      else Ret "regular_prime"%string.

End PrimeClassifier.

(** ** image_generator.py: the grid pass and the statistics *)

Module ImageGenerator.
Import PrimeGenerator PrimeClassifier.

(** A classified point [(x, y, prime_type)]. *)
Definition point : Type := Z * Z * string.

Record statistics : Type := Statistics {
  width : Z;
  height : Z;
  grid_columns : Z;
  grid_rows : Z;
  total_positions : Z;
  total_primes : Z;
  density : Q;
  prime_types : gmap string Z
}.

Definition calculate_dimensions (columns rows dot_size spacing : Z) : Z * Z * Z :=
  let image_width := columns * (dot_size + spacing) - spacing in
  let image_height := rows * (dot_size + spacing) - spacing in
  let total_positions := columns * rows in
  (image_width, image_height, total_positions).

(** [for pos in range(total_positions)], carrying [prime_points]. *)
Fixpoint grid_loop (columns : Z) (primes_set : gset Z) (positions : list Z)
         (prime_points : list point) : outcome (list point) :=
  match positions with
  | [] => Ret prime_points
  | pos :: positions' =>
      x ← Py.mod_ pos columns;
      y ← Py.floordiv pos columns;
      if bool_decide (pos ∈ primes_set) then
        prime_type ← classify_prime pos primes_set;
        grid_loop columns primes_set positions' (prime_points ++ [(x, y, prime_type)])
      else grid_loop columns primes_set positions' prime_points
  end.

Definition create_prime_grid (total_positions columns rows : Z) : outcome (list point) :=
  let primes_set := generate_primes_set total_positions in
  grid_loop columns primes_set (Py.range2 0 total_positions) [].

(** [prime_types[prime_type] = prime_types.get(prime_type, 0) + 1] *)
Definition count_type (prime_types : gmap string Z) (p : point) : gmap string Z :=
  <[p.2 := default 0 (prime_types !! p.2) + 1]> prime_types.

(** The density is a float in the source; here it is the exact quotient. *)
Definition generate_statistics (prime_points : list point)
           (columns rows dot_size spacing : Z) : outcome statistics :=
  let '(width, height, total_positions) :=
    calculate_dimensions columns rows dot_size spacing in
  let prime_types := foldl count_type ∅ prime_points in
  let len := Z.of_nat (length prime_points) in
  if total_positions =? 0 then Raise ZeroDivisionError
  else
    Ret {| width := width;
           height := height;
           grid_columns := columns;
           grid_rows := rows;
           total_positions := total_positions;
           total_primes := len;
           density := Qmult (Qdiv (inject_Z len) (inject_Z total_positions))
                            (inject_Z 100);
           prime_types := prime_types |}.

(** The linear position a point was computed from. *)
Definition point_position (columns : Z) (p : point) : Z :=
  p.1.2 * columns + p.1.1.

End ImageGenerator.

Import PrimeGenerator PrimeClassifier ImageGenerator.

(** ** Notions used to state the properties *)

(** Loop invariant of [is_prime]: no divisor of [n] in [2 .. i-1]. *)
Definition no_divisor_below (n i : Z) : Prop :=
  forall d, 2 <= d < i -> ~ (d | n).

(** Loop invariant of the sieve: after the rounds for [2 .. k-1], a cell is
    still set exactly when its index has no divisor below [k] whose square
    fits. *)
Definition sieve_inv (limit k : Z) (s : list bool) : Prop :=
  forall m, 0 <= m <= limit ->
    (sieve_at s m = true ->
       2 <= m /\ forall d, 2 <= d < k -> d * d <= m -> ~ (d | m))
    /\ (sieve_at s m = false ->
       m < 2 \/ exists d, 2 <= d < k /\ d * d <= m /\ (d | m)).

(** A product of exactly two primes, possibly equal. *)
Definition semiprime (m : Z) : Prop :=
  exists p q, Z.prime p /\ Z.prime q /\ m = p * q.

(** The decimal digits of [n] as numbers, computed like [Py.digits_loop]. *)
Fixpoint digit_values (fuel : nat) (n : Z) (acc : list Z) : list Z :=
  match fuel with
  | O => acc
  | S fuel' =>
      let acc' := n mod 10 :: acc in
      if n <? 10 then acc' else digit_values fuel' (n / 10) acc'
  end.

Definition is_digit (d : Z) : Prop := 0 <= d <= 9.

(** The fuel [Py.digits] hands to its loop. *)
Definition str_fuel (n : Z) : nat := S (Z.to_nat (Z.log2 n)).

Definition sum_squares (ds : list Z) : Z :=
  foldr Z.add 0 ((fun d => d ^ 2) <$> ds).

(** The family predicates as an ordered rule table: a label and its test. *)
Definition rule : Type := string * (Z -> gset Z -> outcome bool).

Definition rule_table : list rule :=
  [ ("mersenne_prime"%string, fun n _ => Ret (is_mersenne_prime n));
    ("factorial_prime"%string, fun n _ => Ret (is_factorial_prime n));
    ("wieferich_prime"%string, fun n _ => Ret (is_wieferich_prime n));
    ("fibonacci_prime"%string, fun n _ => Ret (is_fibonacci_prime n));
    ("twin_prime"%string, fun n ps => Ret (is_twin_prime n ps));
    ("sexy_prime"%string, fun n ps => Ret (is_sexy_prime n ps));
    ("isolated_prime"%string, fun n ps => Ret (is_isolated_prime n ps));
    ("safe_prime"%string, fun n _ => Ret (is_safe_prime n));
    ("sophie_germain_prime"%string, fun n _ => Ret (is_sophie_germain_prime n));
    ("chen_prime"%string, fun n _ => Ret (is_chen_prime n));
    ("palindromic_prime"%string, fun n _ => Ret (is_palindromic_prime n));
    ("circular_prime"%string, fun n _ => is_circular_prime n);
    ("cuban_prime"%string, fun n _ => Ret (is_cuban_prime n));
    ("happy_prime"%string, fun n _ => is_happy_prime n) ].

(** Top-down evaluation of a rule table: the label of the first rule whose
    test is true, ["regular_prime"] when there is none. *)
Fixpoint first_match (rules : list rule) (n : Z) (primes_set : gset Z)
  : outcome string :=
  match rules with
  | [] => Ret "regular_prime"%string
  | r :: rules' =>
      b ← r.2 n primes_set;
      if b : bool then Ret r.1 else first_match rules' n primes_set
  end.

(** [label] is the label of the first rule of [rules] that is true at
    [(n, primes_set)], every earlier rule being false; or no rule is true and
    [label] is ["regular_prime"]. *)
Definition first_true_label (rules : list rule) (n : Z) (primes_set : gset Z)
           (label : string) : Prop :=
  (exists before r after,
      rules = before ++ r :: after
      /\ Forall (fun r' : rule => r'.2 n primes_set = Ret false) before
      /\ r.2 n primes_set = Ret true
      /\ label = r.1)
  \/ (Forall (fun r' : rule => r'.2 n primes_set = Ret false) rules
      /\ label = "regular_prime"%string).

(** What one classified point records about the position it came from. *)
Definition point_ok (columns : Z) (primes_set : gset Z) (pt : point) : Prop :=
  let pos := point_position columns pt in
  pt.1.1 = pos mod columns /\ pt.1.2 = pos / columns
  /\ classify_prime pos primes_set = Ret pt.2.

(** Positions of the grid that hold a prime. *)
Definition prime_positions (bound : Z) : list Z :=
  filter (fun pos => pos ∈ generate_primes_set bound) (Py.range2 0 bound).

(** ** prime_generator.py: [nth_prime] *)

(** Results of the code below: a value, an exception, or a recursion that
    used up its fuel. *)
Inductive pyerr : Type :=
  | PyValueError
  | PyIndexError.

Inductive run (A : Type) : Type :=
  | Done (a : A)
  | Failed (e : pyerr)
  | NoFuel.

Arguments Done {A} a.
Arguments Failed {A} e.
Arguments NoFuel {A}.

(** [l[i]]: a negative index counts from the end, an index outside the list
    is an [IndexError]. *)
Definition list_item {A : Type} (l : list A) (i : Z) : run A :=
  let j := if i <? 0 then Z.of_nat (length l) + i else i in
  if j <? 0 then Failed PyIndexError
  else
    match l !! Z.to_nat j with
    | Some x => Done x
    | None => Failed PyIndexError
    end.

Section NthPrime.

(** The search bound [int(n * (math.log(n) + math.log(math.log(n))))] is a
    floating-point computation; it is left abstract, and everything proved
    about [nth_prime] holds whatever value it takes. *)
Variable limit_estimate : Z -> Z.

(** [nth_prime]; the fuel counts the nested calls of the retry. *)
Fixpoint nth_prime (fuel : nat) (n : Z) : run Z :=
  match fuel with
  | O => NoFuel
  | S fuel' =>
      if n <? 1 then Failed PyValueError
      else if n <? 6 then list_item [2; 3; 5; 7; 11] (n - 1)
      else
        let limit := limit_estimate n in
        let primes := generate_primes limit in
        if n <=? Z.of_nat (length primes) then list_item primes (n - 1)
        else nth_prime fuel' n
  end.

End NthPrime.

(** ** Number-theoretic notions behind the family tests *)

(** [k!] *)
Fixpoint factorial_Z (k : nat) : Z :=
  match k with
  | O => 1
  | S k' => factorial_Z k' * Z.of_nat k
  end.


(** One step of the happy-number iteration on a non-negative number: the sum
    of the squares of its decimal digits. *)
Definition digit_square_step (n : Z) : Z :=
  sum_squares (digit_values (str_fuel n) n []).

(** ** image_generator.py: the dots drawn by [draw_visualization] *)

(** One [draw.ellipse([(x0, y0), (x1, y1)], fill=color)] call. *)
Record ellipse : Type := Ellipse {
  box_x0 : Z;
  box_y0 : Z;
  box_x1 : Z;
  box_y1 : Z;
  fill : list Z
}.

(** The body of [for x, y, prime_type in prime_points]. *)
Definition draw_dot (dot_size spacing : Z) (colors : gmap string (list Z))
           (pt : point) : ellipse :=
  let color := default [0; 0; 0] (colors !! pt.2) in
  let pixel_x := pt.1.1 * (dot_size + spacing) in
  let pixel_y := pt.1.2 * (dot_size + spacing) in
  {| box_x0 := pixel_x; box_y0 := pixel_y;
     box_x1 := pixel_x + dot_size; box_y1 := pixel_y + dot_size;
     fill := color |}.

(** The ellipse calls [draw_visualization] issues, in order; creating and
    saving the image belong to the imaging library and are not modelled. *)
Definition draw_visualization_ellipses (prime_points : list point)
           (dot_size spacing : Z) (colors : gmap string (list Z)) : list ellipse :=
  draw_dot dot_size spacing colors <$> prime_points.

(** ** PrimeVis.py: the sieve of the first script, [Primes.gen_primes] *)

#[global] Instance run_ret : MRet run := fun _ a => Done a.

#[global] Instance run_bind : MBind run := fun _ _ f m =>
  match m with
  | Done a => f a
  | Failed e => Failed e
  | NoFuel => NoFuel
  end.

(** [l[i] = v]: a negative index counts from the end, an index outside the
    list is an [IndexError]. *)
Definition list_store {A : Type} (l : list A) (i : Z) (v : A) : run (list A) :=
  let j := if i <? 0 then Z.of_nat (length l) + i else i in
  if (j <? 0) || (Z.of_nat (length l) <=? j) then Failed PyIndexError
  else Done (<[Z.to_nat j := v]> l).

(** [for i in range(p * 2, n + 1, p): self.primes[i] = False] *)
Fixpoint clear_multiples (primes : list bool) (indices : list Z) : run (list bool) :=
  match indices with
  | [] => Done primes
  | i :: indices' =>
      primes' ← list_store primes i false;
      clear_multiples primes' indices'
  end.

(** [while (p * p <= n)], carrying [self.primes]. *)
Fixpoint gen_primes_loop (fuel : nat) (n p : Z) (primes : list bool)
  : run (list bool) :=
  match fuel with
  | O => NoFuel
  | S fuel' =>
      if p * p <=? n then
        flag ← list_item primes p;
        primes' ← (if flag : bool
                   then clear_multiples primes (Py.range3 (p * 2) (n + 1) p)
                   else Done primes);
        gen_primes_loop fuel' n (p + 1) primes'
      else Done primes
  end.

(** [Primes(n).gen_primes()]: the value of [self.primes] when it returns. *)
Definition gen_primes (n : Z) : run (list bool) :=
  let primes := replicate (Z.to_nat (n + 1)) true in
  primes ← gen_primes_loop (S (Z.to_nat (Z.sqrt n))) n 2 primes;
  primes ← list_store primes 0 false;
  list_store primes 1 false.

(** Loop invariant of [gen_primes]: after the rounds for [2 .. k-1], a cell is
    cleared exactly when its index is a proper multiple of one of them. *)
Definition gen_primes_inv (n k : Z) (s : list bool) : Prop :=
  length s = Z.to_nat (n + 1)
  /\ forall m, 0 <= m <= n ->
       (sieve_at s m = true ->
          forall d, 2 <= d < k -> 2 * d <= m -> ~ (d | m))
       /\ (sieve_at s m = false ->
          exists d, 2 <= d < k /\ 2 * d <= m /\ (d | m)).

(** ** config_manager.py: [update_config] *)

(** A configuration value as [yaml.safe_load] builds it; a dict keeps its
    keys in insertion order. *)
#[local] Set Warnings "-register-all".
Inductive yaml : Type :=
  | YInt (z : Z)
  | YStr (s : string)
  | YBool (b : bool)
  | YList (l : list yaml)
  | YDict (items : list (string * yaml)).

(** [d.get(key)] on the items of a dict. *)
Fixpoint dict_get (key : string) (items : list (string * yaml)) : option yaml :=
  match items with
  | [] => None
  | (k, v) :: items' => if decide (k = key) then Some v else dict_get key items'
  end.

(** [d[key] = value]: an existing key keeps its place, a new key goes last. *)
Fixpoint dict_set (key : string) (value : yaml) (items : list (string * yaml))
  : list (string * yaml) :=
  match items with
  | [] => [(key, value)]
  | (k, v) :: items' =>
      if decide (k = key) then (k, value) :: items'
      else (k, v) :: dict_set key value items'
  end.

(** What [target[key]] holds after one round of the loop of [_update_dict]
    for the item [(key, value)], given what it held before: two dicts are
    merged by the recursive call, anything else is overwritten. *)
Fixpoint merge_value (value : yaml) (old : option yaml) : yaml :=
  match value, old with
  | YDict source, Some (YDict target) =>
      YDict ((fix update (source target : list (string * yaml)) :=
                match source with
                | [] => target
                | (k, v) :: source' =>
                    update source' (dict_set k (merge_value v (dict_get k target)) target)
                end) source target)
  | _, _ => value
  end.

(** [_update_dict(target, source)], returning the items of [target] after
    the call. *)
Definition update_dict (target source : list (string * yaml))
  : list (string * yaml) :=
  foldl (fun tgt kv => dict_set kv.1 (merge_value kv.2 (dict_get kv.1 tgt)) tgt)
        target source.

(** [update_config(updates)] on the items of [self.config]. *)
Definition update_config (config updates : list (string * yaml))
  : list (string * yaml) :=
  update_dict config updates.

(** * Properties *)

(** ** Trial division up to the square root decides primality *)

Section TrialDivision.

Lemma square_le_lt (d m : Z) : 2 <= d -> d * d <= m -> d < m.
Proof. nia. Qed.

Lemma prime_no_small_divisor (m d : Z) :
  Z.prime m -> 2 <= d -> d * d <= m -> ~ (d | m).
Proof.
  intros [_ Hp] Hd Hdd. apply Hp. pose proof (square_le_lt d m Hd Hdd). lia.
Qed.

Lemma no_small_divisor_prime (m : Z) :
  2 <= m -> (forall d, 2 <= d -> d * d <= m -> ~ (d | m)) -> Z.prime m.
Proof.
  intros Hm Hnd. split; [lia |].
  intros d Hd [q Hq].
  assert (Hq1 : 1 < q) by nia.
  destruct (Z_le_gt_dec (d * d) m) as [Hle | Hgt].
  - apply (Hnd d); [lia | exact Hle | exists q; exact Hq].
  - apply (Hnd q); [lia | nia | exists d; lia].
Qed.

Lemma prime_trial (m : Z) :
  Z.prime m <-> 2 <= m /\ (forall d, 2 <= d -> d * d <= m -> ~ (d | m)).
Proof.
  split.
  - intros Hp. split.
    + apply Z.prime_ge_2, Hp.
    + intros d. apply prime_no_small_divisor. exact Hp.
  - intros [Hm Hnd]. apply no_small_divisor_prime; assumption.
Qed.

Lemma proper_divisor_not_prime (m d : Z) :
  1 < d < m -> (d | m) -> ~ Z.prime m.
Proof. intros Hd Hdiv [_ Hp]. exact (Hp d Hd Hdiv). Qed.

Lemma sqrt_lt_square (n i : Z) : 0 <= n -> 0 <= i -> (i * i <= n <-> i <= Z.sqrt n).
Proof.
  intros Hn Hi. apply Z.sqrt_le_square; assumption.
Qed.

End TrialDivision.

(** ** [is_prime] is exact, and its loop never runs out of fuel *)

Section IsPrime.

Lemma mod_eq_0_divide (n d : Z) : d <> 0 -> (n mod d =? 0) = true -> (d | n).
Proof. intros Hd H. apply Z.eqb_eq in H. apply Z.mod_divide; assumption. Qed.

Lemma mod_neq_0_not_divide (n d : Z) : d <> 0 -> (n mod d =? 0) = false -> ~ (d | n).
Proof.
  intros Hd H Hdiv. apply Z.eqb_neq in H. apply H. apply Z.mod_divide; assumption.
Qed.

Lemma no_divisor_below_step (n i : Z) :
  5 <= i -> i mod 6 = 5 ->
  no_divisor_below n i -> ~ (i | n) -> ~ (i + 2 | n) ->
  no_divisor_below n (i + 6).
Proof.
  intros Hi Hmod Hinv Hni Hni2 d Hd Hdiv.
  pose proof (Z.div_mod i 6 ltac:(lia)) as Hdm. rewrite Hmod in Hdm.
  assert (H2 : ~ (2 | n)) by (apply Hinv; lia).
  assert (H3 : ~ (3 | n)) by (apply Hinv; lia).
  assert (Hcases : d < i \/ d = i \/ d = i + 1 \/ d = i + 2 \/ d = i + 3
                   \/ d = i + 4 \/ d = i + 5) by lia.
  destruct Hcases as [Hc | [Hc | [Hc | [Hc | [Hc | [Hc | Hc]]]]]].
  - apply (Hinv d); [lia | exact Hdiv].
  - subst d. tauto.
  - apply H2. apply Z.divide_trans with d; [| exact Hdiv].
    exists (3 * (i / 6) + 3). lia.
  - subst d. tauto.
  - apply H2. apply Z.divide_trans with d; [| exact Hdiv].
    exists (3 * (i / 6) + 4). lia.
  - apply H3. apply Z.divide_trans with d; [| exact Hdiv].
    exists (2 * (i / 6) + 3). lia.
  - apply H2. apply Z.divide_trans with d; [| exact Hdiv].
    exists (3 * (i / 6) + 5). lia.
Qed.

Lemma is_prime_loop_spec (fuel : nat) : forall n i,
  3 < n -> 5 <= i -> i mod 6 = 5 ->
  (0 < fuel)%nat -> Z.sqrt n < i + 6 * (Z.of_nat fuel - 1) ->
  no_divisor_below n i ->
  exists b, is_prime_loop fuel n i = Some b /\ (b = true <-> Z.prime n).
Proof.
  induction fuel as [| fuel IH]; intros n i Hn Hi Hmod Hfuel Hsqrt Hinv; [lia |].
  cbn [is_prime_loop].
  destruct (i * i <=? n) eqn:Hii.
  - apply Z.leb_le in Hii.
    destruct (n mod i =? 0) eqn:Hdi; cbn [orb].
    + exists false. split; [reflexivity |]. split; [discriminate |].
      intros Hp. exfalso.
      apply (prime_no_small_divisor n i Hp); [lia | exact Hii |].
      apply mod_eq_0_divide; [lia | exact Hdi].
    + destruct (n mod (i + 2) =? 0) eqn:Hdi2.
      * exists false. split; [reflexivity |]. split; [discriminate |].
        intros Hp. exfalso.
        apply (proper_divisor_not_prime n (i + 2)); [nia | | exact Hp].
        apply mod_eq_0_divide; [lia | exact Hdi2].
      * assert (Hle : i <= Z.sqrt n) by (apply sqrt_lt_square; lia).
        apply IH; try lia.
        -- rewrite <- Z.add_mod_idemp_l by lia. rewrite Hmod. reflexivity.
        -- apply no_divisor_below_step; try assumption.
           ++ apply mod_neq_0_not_divide; [lia | exact Hdi].
           ++ apply mod_neq_0_not_divide; [lia | exact Hdi2].
  - apply Z.leb_gt in Hii.
    exists true. split; [reflexivity |]. split; [intros _ | reflexivity].
    apply no_small_divisor_prime; [lia |].
    intros d Hd Hdd. apply Hinv. nia.
Qed.

(** The fuel [is_prime] hands to its loop is enough. *)
Lemma is_prime_loop_total (n : Z) :
  3 < n -> n mod 2 <> 0 -> n mod 3 <> 0 ->
  exists b, is_prime_loop (is_prime_fuel n) n 5 = Some b /\ (b = true <-> Z.prime n).
Proof.
  intros Hn H2 H3. pose proof (Z.sqrt_nonneg n) as Hs.
  apply is_prime_loop_spec; try lia.
  - reflexivity.
  - unfold is_prime_fuel. lia.
  - unfold is_prime_fuel. lia.
  - intros d Hd Hdiv.
    assert (Hc : d = 2 \/ d = 3 \/ d = 4) by lia.
    destruct Hc as [-> | [-> | ->]].
    + apply H2. apply Z.mod_divide; [lia | exact Hdiv].
    + apply H3. apply Z.mod_divide; [lia | exact Hdiv].
    + apply H2. apply Z.mod_divide; [lia |].
      apply Z.divide_trans with 4; [exists 2; lia | exact Hdiv].
Qed.

Lemma is_prime_spec (n : Z) : is_prime n = true <-> Z.prime n.
Proof.
  unfold is_prime.
  destruct (n <=? 1) eqn:H1.
  - apply Z.leb_le in H1. split; [discriminate |].
    intros Hp. pose proof (Z.prime_ge_2 n Hp). lia.
  - apply Z.leb_gt in H1. destruct (n <=? 3) eqn:H3.
    + apply Z.leb_le in H3. split; [intros _ | reflexivity].
      assert (Hc : n = 2 \/ n = 3) by lia.
      destruct Hc as [-> | ->]; [exact Z.prime_2 | exact Z.prime_3].
    + apply Z.leb_gt in H3.
      destruct (n mod 2 =? 0) eqn:Hm2; cbn [orb].
      * split; [discriminate |]. intros Hp. exfalso.
        apply (proper_divisor_not_prime n 2); [lia | | exact Hp].
        apply mod_eq_0_divide; [lia | exact Hm2].
      * destruct (n mod 3 =? 0) eqn:Hm3.
        -- split; [discriminate |]. intros Hp. exfalso.
           apply (proper_divisor_not_prime n 3); [lia | | exact Hp].
           apply mod_eq_0_divide; [lia | exact Hm3].
        -- apply Z.eqb_neq in Hm2, Hm3.
           destruct (is_prime_loop_total n H3 Hm2 Hm3) as (b & -> & Hb).
           exact Hb.
Qed.

Lemma is_prime_false (n : Z) : is_prime n = false <-> ~ Z.prime n.
Proof.
  rewrite <- is_prime_spec. destruct (is_prime n); split; congruence.
Qed.

Lemma is_prime_ge_2 (n : Z) : is_prime n = true -> 2 <= n.
Proof. intros H. apply is_prime_spec in H. pose proof (Z.prime_ge_2 n H). lia. Qed.

End IsPrime.

(** ** The sieve marks exactly the composites *)

Section Sieve.

Lemma sieve_at_insert_false (s : list bool) (j m : Z) :
  0 <= j -> 0 <= m ->
  sieve_at (<[Z.to_nat j := false]> s) m = sieve_at s m && negb (m =? j).
Proof.
  intros Hj Hm. unfold sieve_at.
  destruct (Z.eqb_spec m j) as [-> | Hne].
  - destruct (decide (Z.to_nat j < length s)%nat) as [Hlt | Hge].
    + rewrite list_lookup_insert_eq by exact Hlt.
      destruct (s !! Z.to_nat j) as [[] |]; reflexivity.
    + rewrite list_insert_ge by lia.
      rewrite (proj2 (lookup_ge_None s (Z.to_nat j))) by lia. reflexivity.
  - rewrite list_lookup_insert_ne by lia.
    destruct (s !! Z.to_nat m) as [[] |]; reflexivity.
Qed.

(** Writing [False] at each index of [js] clears exactly those cells. *)
Lemma clear_cells_spec (js : list Z) : forall (s : list bool) (m : Z),
  Forall (fun j => 0 <= j) js -> 0 <= m ->
  sieve_at (foldl (fun s j => <[Z.to_nat j := false]> s) s js) m = true
  <-> sieve_at s m = true /\ m ∉ js.
Proof.
  induction js as [| j js IH]; intros s m Hjs Hm; cbn [foldl].
  - split; [intros Hs; split; [exact Hs | apply not_elem_of_nil] | tauto].
  - apply Forall_cons in Hjs as [Hj Hjs].
    rewrite IH by assumption. rewrite sieve_at_insert_false by assumption.
    rewrite andb_true_iff, negb_true_iff, Z.eqb_neq, not_elem_of_cons. tauto.
Qed.

Lemma clear_cells_length (js : list Z) : forall (s : list bool),
  length (foldl (fun s j => <[Z.to_nat j := false]> s) s js) = length s.
Proof.
  induction js as [| j js IH]; intros s; cbn [foldl]; [reflexivity |].
  rewrite IH. apply length_insert.
Qed.

(** The values of [range(i*i, limit + 1, i)]. *)
Lemma elem_of_multiples (limit i m : Z) :
  0 < i ->
  m ∈ Py.range3 (i * i) (limit + 1) i <-> i * i <= m <= limit /\ (i | m).
Proof.
  intros Hi. unfold Py.range3. rewrite list_elem_of_fmap. split.
  - intros (k & -> & Hk). apply elem_of_seqZ in Hk.
    assert (Hb : i * (k + 1) <= limit + 1 - i * i + i - 1).
    { etransitivity; [| apply (Z.mul_div_le _ i Hi)].
      apply Z.mul_le_mono_nonneg_l; lia. }
    split; [nia | exists (i + k); lia].
  - intros [Hm [q Hq]]. exists (q - i). split; [lia |].
    apply elem_of_seqZ.
    assert (Hqi : i <= q) by nia.
    split; [lia |].
    assert (Hb : q - i + 1 <= (limit + 1 - i * i + i - 1) / i).
    { apply Z.div_le_lower_bound; [exact Hi | nia]. }
    lia.
Qed.

(** Every write of the inner loop lands inside the array. *)
Lemma mark_multiples_in_range (limit i j : Z) (s : list bool) :
  0 < i -> length s = Z.to_nat (limit + 1) ->
  j ∈ Py.range3 (i * i) (limit + 1) i -> (Z.to_nat j < length s)%nat.
Proof.
  intros Hi Hlen Hj. apply elem_of_multiples in Hj as [Hj _]; [| exact Hi].
  rewrite Hlen. nia.
Qed.

Lemma mark_multiples_length (limit i : Z) (s : list bool) :
  length (mark_multiples limit i s) = length s.
Proof. apply clear_cells_length. Qed.

Lemma mark_multiples_spec (limit i : Z) (s : list bool) (m : Z) :
  0 < i -> 0 <= m ->
  sieve_at (mark_multiples limit i s) m = true
  <-> sieve_at s m = true /\ ~ (i * i <= m <= limit /\ (i | m)).
Proof.
  intros Hi Hm. unfold mark_multiples.
  rewrite clear_cells_spec; [| | exact Hm].
  - rewrite elem_of_multiples by exact Hi. reflexivity.
  - apply Forall_forall. intros j Hj.
    apply elem_of_multiples in Hj; [nia | exact Hi].
Qed.

Lemma sieve_init_at (limit m : Z) :
  0 <= m <= limit -> sieve_at (sieve_init limit) m = (2 <=? m).
Proof.
  intros Hm. unfold sieve_at, sieve_init.
  destruct (decide (m = 0)) as [-> | H0].
  - cbn [Z.to_nat]. rewrite list_lookup_insert_ne by lia.
    rewrite list_lookup_insert_eq; [reflexivity |].
    rewrite length_replicate. lia.
  - destruct (decide (m = 1)) as [-> | H1].
    + change (Z.to_nat 1) with 1%nat.
      rewrite list_lookup_insert_eq; [reflexivity |].
      rewrite length_insert, length_replicate. lia.
    + rewrite !list_lookup_insert_ne by lia.
      rewrite lookup_replicate_2 by lia.
      symmetry. apply Z.leb_le. lia.
Qed.

Lemma sieve_inv_init (limit : Z) : sieve_inv limit 2 (sieve_init limit).
Proof.
  intros m Hm. rewrite sieve_init_at by exact Hm. split.
  - intros H2. apply Z.leb_le in H2. split; [exact H2 | intros d Hd; lia].
  - intros H2. apply Z.leb_gt in H2. left. exact H2.
Qed.

Lemma sieve_inv_step (limit k : Z) (s : list bool) :
  2 <= k -> sieve_inv limit k s -> sieve_inv limit (k + 1) (sieve_step limit s k).
Proof.
  intros Hk Hinv m Hm. destruct (Hinv m Hm) as [Ht Hf].
  unfold sieve_step. destruct (sieve_at s k) eqn:Hsk.
  - split.
    + intros Hs. apply mark_multiples_spec in Hs as [Hs Hnot]; [| lia | lia].
      destruct (Ht Hs) as [Hm2 Hnd]. split; [exact Hm2 |].
      intros d Hd Hdd Hdiv.
      destruct (decide (d = k)) as [-> | Hne].
      * apply Hnot. split; [lia | exact Hdiv].
      * apply (Hnd d); [lia | exact Hdd | exact Hdiv].
    + intros Hs. destruct (sieve_at s m) eqn:Hsm.
      * right. exists k.
        destruct (Z_le_gt_dec (k * k) m) as [Hle | Hgt];
          [destruct (Z.BoolSpec_divide k m) as [Hdiv | Hndiv] |].
        -- split; [lia | split; [exact Hle | exact Hdiv]].
        -- exfalso. assert (Hc : sieve_at (mark_multiples limit k s) m = true).
           { apply mark_multiples_spec; [lia | lia |]. split; [exact Hsm | tauto]. }
           congruence.
        -- exfalso. assert (Hc : sieve_at (mark_multiples limit k s) m = true).
           { apply mark_multiples_spec; [lia | lia |]. split; [exact Hsm | lia]. }
           congruence.
      * destruct (Hf eq_refl) as [Hlt | (d & Hd & Hdd & Hdiv)]; [left; exact Hlt |].
        right. exists d. split; [lia | split; assumption].
  - split.
    + intros Hs. destruct (Ht Hs) as [Hm2 Hnd]. split; [exact Hm2 |].
      intros d Hd Hdd Hdiv.
      destruct (decide (d = k)) as [-> | Hne].
      * assert (Hkl : 0 <= k <= limit) by nia.
        destruct (Hinv k Hkl) as [_ Hfk].
        destruct (Hfk Hsk) as [Hlt | (e & He & Hee & Hediv)]; [lia |].
        apply (Hnd e); [lia | nia |].
        apply Z.divide_trans with k; assumption.
      * apply (Hnd d); [lia | exact Hdd | exact Hdiv].
    + intros Hs.
      destruct (Hf Hs) as [Hlt | (d & Hd & Hdd & Hdiv)]; [left; exact Hlt |].
      right. exists d. split; [lia | split; assumption].
Qed.

Lemma sieve_inv_rounds (limit : Z) (len : nat) : forall k s,
  2 <= k -> sieve_inv limit k s ->
  sieve_inv limit (k + Z.of_nat len)
            (foldl (sieve_step limit) s (seqZ k (Z.of_nat len))).
Proof.
  induction len as [| len IH]; intros k s Hk Hinv.
  - cbn. rewrite Z.add_0_r. exact Hinv.
  - rewrite seqZ_cons by lia. cbn [foldl].
    replace (Z.pred (Z.of_nat (S len))) with (Z.of_nat len) by lia.
    replace (k + Z.of_nat (S len)) with (Z.succ k + Z.of_nat len) by lia.
    apply IH; [lia |].
    replace (Z.succ k) with (k + 1) by lia.
    apply sieve_inv_step; assumption.
Qed.

Lemma run_sieve_inv (limit : Z) :
  2 <= limit -> sieve_inv limit (Z.sqrt limit + 1) (run_sieve limit).
Proof.
  intros Hl. unfold run_sieve, Py.range2, Py.int_sqrt.
  assert (Hs : 1 <= Z.sqrt limit).
  { apply Z.sqrt_le_square; lia. }
  replace (Z.sqrt limit + 1 - 2) with (Z.of_nat (Z.to_nat (Z.sqrt limit - 1))) by lia.
  replace (Z.sqrt limit + 1) with (2 + Z.of_nat (Z.to_nat (Z.sqrt limit - 1))) at 1 by lia.
  apply sieve_inv_rounds; [lia | apply sieve_inv_init].
Qed.

Lemma run_sieve_length (limit : Z) :
  2 <= limit -> length (run_sieve limit) = Z.to_nat (limit + 1).
Proof.
  intros Hl. unfold run_sieve.
  generalize (Py.range2 2 (Py.int_sqrt limit + 1)).
  assert (Hinit : length (sieve_init limit) = Z.to_nat (limit + 1)).
  { unfold sieve_init. rewrite !length_insert. apply length_replicate. }
  revert Hinit. generalize (sieve_init limit).
  intros s Hs rounds. revert s Hs.
  induction rounds as [| i rounds IH]; intros s Hs; cbn [foldl]; [exact Hs |].
  apply IH. unfold sieve_step.
  destruct (sieve_at s i); [rewrite mark_multiples_length |]; exact Hs.
Qed.

Lemma run_sieve_prime (limit m : Z) :
  2 <= limit -> 0 <= m <= limit ->
  sieve_at (run_sieve limit) m = true <-> Z.prime m.
Proof.
  intros Hl Hm. destruct (run_sieve_inv limit Hl m Hm) as [Ht Hf]. split.
  - intros Hs. destruct (Ht Hs) as [Hm2 Hnd].
    apply no_small_divisor_prime; [exact Hm2 |].
    intros d Hd Hdd. apply Hnd; [| exact Hdd].
    assert (Hle : d <= Z.sqrt m) by (apply Z.sqrt_le_square; lia).
    pose proof (Z.sqrt_le_mono m limit ltac:(lia)). lia.
  - intros Hp. destruct (sieve_at (run_sieve limit) m) eqn:Hs; [reflexivity | exfalso].
    pose proof (Z.prime_ge_2 m Hp) as Hm2.
    destruct (Hf eq_refl) as [Hlt | (d & Hd & Hdd & Hdiv)]; [lia |].
    exact (prime_no_small_divisor m d Hp ltac:(lia) Hdd Hdiv).
Qed.

(** Membership in the sieve's result is exactly primality below the limit. *)
Lemma generate_primes_spec (limit n : Z) :
  n ∈ generate_primes limit <-> Z.prime n /\ n <= limit.
Proof.
  unfold generate_primes. destruct (limit <? 2) eqn:Hl.
  - apply Z.ltb_lt in Hl. split.
    + intros Hin. apply elem_of_nil in Hin. contradiction.
    + intros [Hp Hle]. pose proof (Z.prime_ge_2 n Hp). lia.
  - apply Z.ltb_ge in Hl. cbv zeta.
    rewrite list_elem_of_filter. unfold Py.range2. rewrite elem_of_seqZ. split.
    + intros [Hs Hn]. split; [| lia].
      apply (run_sieve_prime limit n Hl); [lia | exact Hs].
    + intros [Hp Hle]. pose proof (Z.prime_ge_2 n Hp).
      split; [| lia]. apply (run_sieve_prime limit n Hl); [lia | exact Hp].
Qed.

Lemma generate_primes_NoDup (limit : Z) : NoDup (generate_primes limit).
Proof.
  unfold generate_primes. destruct (limit <? 2); [apply NoDup_nil_2 |].
  apply NoDup_filter, NoDup_seqZ.
Qed.

Lemma generate_primes_set_spec (limit n : Z) :
  n ∈ generate_primes_set limit <-> Z.prime n /\ n <= limit.
Proof.
  unfold generate_primes_set. rewrite elem_of_list_to_set.
  apply generate_primes_spec.
Qed.

End Sieve.

(** ** Decimal strings *)

Section Decimal.

(** Settle a goal about a digit [d] by running through its ten values. *)
Ltac each_digit d Hd :=
  unfold is_digit in Hd;
  let Hc := fresh "Hc" in
  assert (Hc : d = 0 \/ d = 1 \/ d = 2 \/ d = 3 \/ d = 4 \/ d = 5 \/ d = 6
               \/ d = 7 \/ d = 8 \/ d = 9) by lia;
  repeat (destruct Hc as [-> | Hc]; [reflexivity |]); subst d; reflexivity.

Lemma int_of_char_digit_char (d : Z) :
  is_digit d -> Py.int_of_char (Py.digit_char d) = Ret d.
Proof. intros Hd. each_digit d Hd. Qed.

Lemma digit_char_not_minus (d : Z) :
  is_digit d -> Ascii.eqb (Py.digit_char d) "-" = false.
Proof. intros Hd. each_digit d Hd. Qed.

Lemma mod_10_digit (n : Z) : is_digit (n mod 10).
Proof. unfold is_digit. pose proof (Z.mod_pos_bound n 10). lia. Qed.

(** The character loop and the number loop run in step. *)
Lemma digits_loop_values (fuel : nat) : forall n acc,
  Py.digits_loop fuel n (Py.digit_char <$> acc)
  = Py.digit_char <$> digit_values fuel n acc.
Proof.
  induction fuel as [| fuel IH]; intros n acc; cbn [Py.digits_loop digit_values].
  - reflexivity.
  - destruct (n <? 10); [reflexivity |].
    rewrite <- IH. reflexivity.
Qed.

Lemma digit_values_digits (fuel : nat) : forall n acc,
  Forall is_digit acc -> Forall is_digit (digit_values fuel n acc).
Proof.
  induction fuel as [| fuel IH]; intros n acc Hacc; cbn [digit_values].
  - exact Hacc.
  - assert (Hacc' : Forall is_digit (n mod 10 :: acc)).
    { apply Forall_cons. split; [apply mod_10_digit | exact Hacc]. }
    destruct (n <? 10); [exact Hacc' | apply IH, Hacc'].
Qed.

Lemma digit_values_nonempty (fuel : nat) (n : Z) (acc : list Z) :
  digit_values (S fuel) n acc <> [].
Proof.
  revert n acc. induction fuel as [| fuel IH]; intros n acc.
  - cbn. destruct (n <? 10); discriminate.
  - cbn [digit_values]. destruct (n <? 10); [discriminate |].
    apply (IH (n / 10) (n mod 10 :: acc)).
Qed.

Lemma str_nonneg (n : Z) :
  0 <= n -> Py.str n = Py.digit_char <$> digit_values (str_fuel n) n [].
Proof.
  intros Hn. unfold Py.str, Py.digits.
  destruct (n <? 0) eqn:Hneg; [apply Z.ltb_lt in Hneg; lia |].
  apply (digits_loop_values _ n []).
Qed.

Lemma mapM_int_of_char (ds : list Z) :
  Forall is_digit ds -> mapM Py.int_of_char (Py.digit_char <$> ds) = Ret ds.
Proof.
  induction 1 as [| d ds Hd Hds IH]; [reflexivity |].
  cbn. rewrite int_of_char_digit_char by exact Hd. cbn.
  cbn in IH. rewrite IH. reflexivity.
Qed.

(** Reading a digit string back: [int] folds the digits into a number. *)
Lemma int_of_digits_values (ds : list Z) : forall a,
  Forall is_digit ds ->
  Py.int_of_digits (Py.digit_char <$> ds) a
  = Ret (foldl (fun a d => a * 10 + d) a ds).
Proof.
  induction ds as [| d ds IH]; intros a Hds; [reflexivity |].
  apply Forall_cons in Hds as [Hd Hds].
  cbn. rewrite int_of_char_digit_char by exact Hd. cbn.
  apply IH, Hds.
Qed.

Lemma int_of_str_values (ds : list Z) :
  Forall is_digit ds -> ds <> [] ->
  Py.int_of_str (Py.digit_char <$> ds)
  = Ret (foldl (fun a d => a * 10 + d) 0 ds).
Proof.
  intros Hds Hne. destruct ds as [| d ds]; [congruence |].
  pose proof (Forall_inv Hds) as Hd.
  change (Py.digit_char <$> d :: ds)
    with (Py.digit_char d :: (Py.digit_char <$> ds)).
  unfold Py.int_of_str. rewrite digit_char_not_minus by exact Hd.
  apply (int_of_digits_values (d :: ds) 0 Hds).
Qed.

Lemma digit_values_number (fuel : nat) : forall n acc,
  0 <= n < 2 ^ Z.of_nat fuel ->
  foldl (fun a d => a * 10 + d) 0 (digit_values fuel n acc)
  = foldl (fun a d => a * 10 + d) n acc.
Proof.
  induction fuel as [| fuel IH]; intros n acc Hn.
  - cbn in Hn. assert (n = 0) by lia. subst n. reflexivity.
  - cbn [digit_values]. destruct (n <? 10) eqn:H10.
    + apply Z.ltb_lt in H10. rewrite Z.mod_small by lia. reflexivity.
    + apply Z.ltb_ge in H10. rewrite IH.
      * cbn [foldl]. f_equal. pose proof (Z.div_mod n 10 ltac:(lia)). lia.
      * rewrite Nat2Z.inj_succ, Z.pow_succ_r in Hn by lia.
        split; [apply Z.div_pos; lia |].
        apply Z.div_lt_upper_bound; lia.
Qed.

Lemma str_fuel_enough (n : Z) : 0 <= n -> n < 2 ^ Z.of_nat (str_fuel n).
Proof.
  intros Hn. unfold str_fuel. rewrite Nat2Z.inj_succ, Z2Nat.id by apply Z.log2_nonneg.
  destruct (decide (n = 0)) as [-> | Hne]; [reflexivity |].
  apply Z.log2_spec. lia.
Qed.

(** [int(str(n)) == n]: the fuel of [Py.digits] covers every digit. *)
Lemma int_of_str_str (n : Z) : 0 <= n -> Py.int_of_str (Py.str n) = Ret n.
Proof.
  intros Hn. rewrite str_nonneg by exact Hn.
  rewrite int_of_str_values.
  - f_equal. apply (digit_values_number _ n []).
    split; [exact Hn | apply str_fuel_enough, Hn].
  - apply digit_values_digits, Forall_nil_2.
  - apply digit_values_nonempty.
Qed.

Lemma sum_squares_cons (d : Z) (ds : list Z) :
  sum_squares (d :: ds) = d ^ 2 + sum_squares ds.
Proof. reflexivity. Qed.

Lemma digit_square_bound (d : Z) : is_digit d -> 0 <= d ^ 2 <= 81 /\ d ^ 2 <= 9 * d.
Proof. unfold is_digit. intros Hd. nia. Qed.

Lemma sum_squares_digit_values (fuel : nat) : forall n acc,
  0 <= n ->
  sum_squares acc <= sum_squares (digit_values fuel n acc)
                  <= sum_squares acc + 9 * n.
Proof.
  induction fuel as [| fuel IH]; intros n acc Hn; cbn [digit_values]; [lia |].
  pose proof (digit_square_bound (n mod 10) (mod_10_digit n)) as Hsq.
  pose proof (Z.div_mod n 10 ltac:(lia)) as Hdm.
  pose proof (Z.mod_pos_bound n 10 ltac:(lia)) as Hmb.
  destruct (n <? 10) eqn:H10.
  - rewrite sum_squares_cons. lia.
  - assert (Hq : 0 <= n / 10) by (apply Z.div_pos; lia).
    pose proof (IH (n / 10) (n mod 10 :: acc) Hq) as Hrec.
    rewrite sum_squares_cons in Hrec. lia.
Qed.

(** The digit-square sum of [n] is small: at most [162 + 9 * (n / 100)]. *)
Lemma sum_squares_small (fuel : nat) (n : Z) :
  0 <= n ->
  0 <= sum_squares (digit_values fuel n []) <= 162 + 9 * (n / 100).
Proof.
  intros Hn.
  assert (H100 : 0 <= n / 100) by (apply Z.div_pos; lia).
  pose proof (digit_square_bound (n mod 10) (mod_10_digit n)) as Hsq0.
  pose proof (digit_square_bound (n / 10 mod 10) (mod_10_digit (n / 10))) as Hsq1.
  assert (Hq : 0 <= n / 10) by (apply Z.div_pos; lia).
  destruct fuel as [| [| fuel]]; cbn [digit_values].
  - cbn. lia.
  - destruct (n <? 10); cbn; lia.
  - destruct (n <? 10); [cbn; lia |].
    destruct (n / 10 <? 10); [unfold sum_squares; cbn [fmap list_fmap foldr]; lia |].
    pose proof (sum_squares_digit_values fuel (n / 10 / 10)
                  [n / 10 mod 10; n mod 10] ltac:(apply Z.div_pos; lia)) as Hrec.
    rewrite Z.div_div in Hrec by lia. change (10 * 10) with 100 in Hrec.
    rewrite Z.div_div by lia. change (10 * 10) with 100.
    rewrite !sum_squares_cons in Hrec.
    change (sum_squares []) with 0 in Hrec. lia.
Qed.

Lemma digit_square_sum_nonneg (n : Z) :
  0 <= n ->
  exists m, digit_square_sum n = Ret m /\ 0 <= m <= 162 + 9 * (n / 100).
Proof.
  intros Hn. exists (sum_squares (digit_values (str_fuel n) n [])).
  split; [| apply sum_squares_small, Hn].
  unfold digit_square_sum. rewrite str_nonneg by exact Hn.
  rewrite mapM_int_of_char; [reflexivity |].
  apply digit_values_digits, Forall_nil_2.
Qed.

End Decimal.

(** ** The happy-number loop stops by itself *)

Section Happy.

Lemma size_bounded_set (B : Z) (seen : gset Z) :
  0 <= B -> (forall x, x ∈ seen -> 0 <= x <= B) ->
  (size seen <= Z.to_nat (B + 1))%nat.
Proof.
  intros HB Hseen.
  assert (Hsub : seen ⊆ list_to_set (seqZ 0 (B + 1))).
  { intros x Hx. apply elem_of_list_to_set, elem_of_seqZ.
    pose proof (Hseen x Hx). lia. }
  apply subseteq_size in Hsub.
  rewrite size_list_to_set in Hsub by apply NoDup_seqZ.
  rewrite length_seqZ in Hsub. exact Hsub.
Qed.

(** All values the loop visits stay below [B]; each round adds a new one to
    [seen], so the loop leaves before the fuel is gone. *)
Lemma happy_loop_returns (B : Z) (fuel : nat) : forall n seen,
  179 <= B -> 0 <= n <= B ->
  (forall x, x ∈ seen -> 0 <= x <= B) ->
  (Z.to_nat (B + 2) <= fuel + size seen)%nat ->
  exists n' seen',
    happy_loop fuel n seen = Ret (n', seen')
    /\ (n' = 1 \/ n' ∈ seen').
Proof.
  induction fuel as [| fuel IH]; intros n seen HB Hn Hseen Hfuel.
  - pose proof (size_bounded_set B seen ltac:(lia) Hseen). lia.
  - cbn [happy_loop].
    destruct (bool_decide (n ≠ 1)) eqn:Hn1; cbn [andb].
    + destruct (bool_decide (n ∉ seen)) eqn:Hns.
      * apply bool_decide_eq_true in Hns.
        destruct (digit_square_sum_nonneg n ltac:(lia)) as (m & -> & Hm).
        cbn. apply IH; try assumption.
        -- assert (H100 : n / 100 <= B / 100) by (apply Z.div_le_mono; lia).
           pose proof (Z.mul_div_le B 100 ltac:(lia)). lia.
        -- intros x Hx. apply elem_of_union in Hx as [Hx | Hx].
           ++ apply elem_of_singleton in Hx. subst x. exact Hn.
           ++ apply Hseen, Hx.
        -- rewrite size_union by (apply disjoint_singleton_l; exact Hns).
           rewrite size_singleton. lia.
      * apply bool_decide_eq_false in Hns.
        exists n, seen. split; [reflexivity |]. right.
        destruct (decide (n ∈ seen)) as [Hin | Hnin]; [exact Hin | tauto].
    + apply bool_decide_eq_false in Hn1.
      exists n, seen. split; [reflexivity |]. left.
      destruct (decide (n = 1)) as [Heq | Hne]; [exact Heq | tauto].
Qed.

(** More fuel never changes a result. *)
Lemma happy_loop_more_fuel (fuel : nat) : forall n seen r fuel',
  happy_loop fuel n seen = Ret r -> (fuel <= fuel')%nat ->
  happy_loop fuel' n seen = Ret r.
Proof.
  induction fuel as [| fuel IH]; intros n seen r fuel' Hrun Hle; [discriminate |].
  destruct fuel' as [| fuel']; [lia |].
  cbn [happy_loop] in *.
  destruct (bool_decide (n ≠ 1) && bool_decide (n ∉ seen)); [| exact Hrun].
  destruct (digit_square_sum n) as [m | e |]; cbn in *; try discriminate.
  apply (IH _ _ _ fuel' Hrun). lia.
Qed.

Lemma is_happy_number_returns (n : Z) :
  0 <= n ->
  exists n' seen',
    happy_loop (happy_fuel n) n ∅ = Ret (n', seen')
    /\ (n' = 1 \/ n' ∈ seen')
    /\ is_happy_number n = Ret (n' =? 1).
Proof.
  intros Hn.
  destruct (happy_loop_returns (Z.max n 243) (happy_fuel n) n ∅)
    as (n' & seen' & Hrun & Hexit).
  - lia.
  - lia.
  - intros x Hx. apply not_elem_of_empty in Hx. contradiction.
  - unfold happy_fuel. rewrite size_empty. lia.
  - exists n', seen'. split; [exact Hrun | split; [exact Hexit |]].
    unfold is_happy_number. rewrite Hrun. reflexivity.
Qed.

Lemma is_happy_prime_returns (n : Z) : exists b, is_happy_prime n = Ret b.
Proof.
  unfold is_happy_prime. destruct (is_prime n) eqn:Hp.
  - destruct (is_happy_number_returns n) as (n' & _ & _ & _ & ->).
    + pose proof (is_prime_ge_2 n Hp). lia.
    + eexists. reflexivity.
  - eexists. reflexivity.
Qed.

End Happy.

(** ** The classifier *)

Section Classifier.

Lemma rotation_digits (ds : list Z) (i : nat) :
  Forall is_digit ds -> ds <> [] ->
  exists v,
    Py.int_of_str (drop i (Py.digit_char <$> ds) ++ take i (Py.digit_char <$> ds))
    = Ret v.
Proof.
  intros Hds Hne.
  rewrite <- fmap_drop, <- fmap_take, <- fmap_app.
  eexists. apply int_of_str_values.
  - apply Forall_app. split; [apply Forall_drop | apply Forall_take]; exact Hds.
  - intros Hnil. apply app_nil in Hnil as [Hd Ht].
    apply drop_nil_inv in Hd. rewrite take_ge in Ht by exact Hd. contradiction.
Qed.

Lemma circular_loop_returns (ds : list Z) (indices : list Z) :
  Forall is_digit ds -> ds <> [] ->
  exists b, circular_loop (Py.digit_char <$> ds) indices = Ret b.
Proof.
  intros Hds Hne. induction indices as [| i indices IH]; cbn [circular_loop].
  - exists true. reflexivity.
  - destruct (rotation_digits ds (Z.to_nat i) Hds Hne) as [v ->]. cbn.
    destruct (negb (is_prime v)); [exists false; reflexivity | exact IH].
Qed.

Lemma is_circular_prime_returns (n : Z) : exists b, is_circular_prime n = Ret b.
Proof.
  unfold is_circular_prime. destruct (is_prime n) eqn:Hp; cbn [negb].
  - pose proof (is_prime_ge_2 n Hp) as Hn.
    rewrite str_nonneg by lia.
    destruct (Z.of_nat _ =? 1); [exists true; reflexivity |].
    apply circular_loop_returns.
    + apply digit_values_digits, Forall_nil_2.
    + apply digit_values_nonempty.
  - exists false. reflexivity.
Qed.

(** The [elif] chain is the top-down evaluation of the rule table. *)
Lemma classify_prime_first_match (n : Z) (primes_set : gset Z) :
  classify_prime n primes_set = first_match rule_table n primes_set.
Proof. reflexivity. Qed.

Lemma first_match_spec (n : Z) (primes_set : gset Z) (rules : list rule) :
  forall label,
    first_match rules n primes_set = Ret label ->
    first_true_label rules n primes_set label.
Proof.
  induction rules as [| r rules IH]; intros label Hrun; cbn [first_match] in Hrun.
  - right. split; [apply Forall_nil_2 | congruence].
  - destruct (r.2 n primes_set) as [[] | e |] eqn:Hr; cbn in Hrun; try discriminate.
    + left. exists [], r, rules.
      split; [reflexivity | split; [apply Forall_nil_2 | split; [exact Hr | congruence]]].
    + destruct (IH label Hrun)
        as [(before & r0 & after & -> & Hbefore & Hr0 & Hlabel) | [Hall Hlabel]].
      * left. exists (r :: before), r0, after.
        split; [reflexivity |].
        split; [apply Forall_cons; split; assumption | split; assumption].
      * right. split; [apply Forall_cons; split; assumption | exact Hlabel].
Qed.

Lemma first_match_returns (n : Z) (primes_set : gset Z) (rules : list rule) :
  Forall (fun r : rule => exists b, r.2 n primes_set = Ret b) rules ->
  exists label, first_match rules n primes_set = Ret label.
Proof.
  induction 1 as [| r rules [b Hb] _ IH]; cbn [first_match].
  - eexists. reflexivity.
  - rewrite Hb. cbn. destruct b; [eexists; reflexivity | exact IH].
Qed.

Lemma rule_table_returns (n : Z) (primes_set : gset Z) :
  Forall (fun r : rule => exists b, r.2 n primes_set = Ret b) rule_table.
Proof.
  unfold rule_table.
  repeat (apply Forall_cons; split;
          [first [ eexists; reflexivity
                 | apply is_circular_prime_returns
                 | apply is_happy_prime_returns ] |]).
  apply Forall_nil_2.
Qed.

Lemma classify_prime_returns (n : Z) (primes_set : gset Z) :
  exists label, classify_prime n primes_set = Ret label.
Proof.
  rewrite classify_prime_first_match.
  apply first_match_returns, rule_table_returns.
Qed.

(** Every family test starts by rejecting a non-prime. *)
Lemma rule_table_not_prime (n : Z) (primes_set : gset Z) :
  is_prime n = false ->
  (forall p, p ∈ primes_set -> is_prime p = true) ->
  Forall (fun r : rule => r.2 n primes_set = Ret false) rule_table.
Proof.
  intros Hn Hps.
  assert (Hnot : bool_decide (n ∈ primes_set) = false).
  { apply bool_decide_eq_false_2. intros Hin. apply Hps in Hin. congruence. }
  unfold rule_table.
  repeat (apply Forall_cons; split; [cbn [snd] |]); [.. | apply Forall_nil_2].
  - unfold is_mersenne_prime. rewrite Hn. reflexivity.
  - unfold is_factorial_prime. rewrite Hn. reflexivity.
  - unfold is_wieferich_prime. rewrite Hn. reflexivity.
  - unfold is_fibonacci_prime. rewrite Hn. reflexivity.
  - unfold is_twin_prime. rewrite Hnot. reflexivity.
  - unfold is_sexy_prime. rewrite Hn. reflexivity.
  - unfold is_isolated_prime. rewrite Hn. reflexivity.
  - unfold is_safe_prime. rewrite Hn, andb_false_r. reflexivity.
  - unfold is_sophie_germain_prime. rewrite Hn. reflexivity.
  - unfold is_chen_prime. rewrite Hn. reflexivity.
  - unfold is_palindromic_prime. rewrite Hn. reflexivity.
  - unfold is_circular_prime. rewrite Hn. reflexivity.
  - unfold is_cuban_prime. rewrite Hn. reflexivity.
  - unfold is_happy_prime. rewrite Hn. reflexivity.
Qed.

Lemma first_match_all_false (n : Z) (primes_set : gset Z) (rules : list rule) :
  Forall (fun r : rule => r.2 n primes_set = Ret false) rules ->
  first_match rules n primes_set = Ret "regular_prime"%string.
Proof.
  induction 1 as [| r rules Hr _ IH]; cbn [first_match]; [reflexivity |].
  rewrite Hr. exact IH.
Qed.

End Classifier.

(** ** Chen primes: the first divisor found settles the semiprime test *)

Section Chen.

(** A [for] loop that returns at the first hit, over [a, a+1, ...]. *)
Lemma find_first (f : Z -> bool) (len : nat) : forall a,
  match List.find f (seqZ a (Z.of_nat len)) with
  | Some i => a <= i < a + Z.of_nat len /\ f i = true
              /\ forall j, a <= j < i -> f j = false
  | None => forall j, a <= j < a + Z.of_nat len -> f j = false
  end.
Proof.
  induction len as [| len IH]; intros a.
  - cbn. intros j Hj. lia.
  - rewrite seqZ_cons by lia. cbn [List.find].
    replace (Z.pred (Z.of_nat (S len))) with (Z.of_nat len) by lia.
    destruct (f a) eqn:Hfa.
    + split; [lia | split; [exact Hfa | intros j Hj; lia]].
    + specialize (IH (Z.succ a)).
      destruct (List.find f (seqZ (Z.succ a) (Z.of_nat len))) as [i |].
      * destruct IH as (Hi & Hfi & Hmin). split; [lia | split; [exact Hfi |]].
        intros j Hj. destruct (decide (j = a)) as [-> | Hne]; [exact Hfa |].
        apply Hmin. lia.
      * intros j Hj. destruct (decide (j = a)) as [-> | Hne]; [exact Hfa |].
        apply IH. lia.
Qed.

Lemma least_divisor_prime (m i : Z) :
  2 <= i -> (i | m) ->
  (forall j, 2 <= j < i -> (m mod j =? 0) = false) ->
  Z.prime i.
Proof.
  intros Hi Hdiv Hmin. split; [lia |].
  intros d Hd Hdi.
  apply (mod_neq_0_not_divide m d); [lia | apply Hmin; lia |].
  apply Z.divide_trans with i; assumption.
Qed.

Lemma semiprime_cofactor (m i : Z) :
  Z.prime i -> (i | m) -> semiprime m -> Z.prime (m / i).
Proof.
  intros Hi Hdiv (p & q & Hp & Hq & ->).
  pose proof (Z.prime_ge_2 i Hi) as Hi2.
  apply (Z.divide_prime_mul p q i Hi) in Hdiv as [Hd | Hd].
  - apply (Z.divide_prime_prime i p Hi Hp) in Hd. subst p.
    rewrite Z.mul_comm, Z.div_mul by lia. exact Hq.
  - apply (Z.divide_prime_prime i q Hi Hq) in Hd. subst q.
    rewrite Z.div_mul by lia. exact Hp.
Qed.


End Chen.

(** ** The grid pass *)

Section Grid.

Lemma point_position_div_mod (columns pos : Z) (label : string) :
  columns <> 0 ->
  point_position columns (pos mod columns, pos / columns, label) = pos.
Proof.
  intros Hc. unfold point_position. cbn [fst snd].
  pose proof (Z.div_mod pos columns Hc). lia.
Qed.

Lemma grid_loop_spec (columns : Z) (primes_set : gset Z) (positions : list Z) :
  columns <> 0 ->
  forall prime_points, exists new_points,
    grid_loop columns primes_set positions prime_points
    = Ret (prime_points ++ new_points)
    /\ point_position columns <$> new_points
       = filter (fun pos => pos ∈ primes_set) positions
    /\ Forall (point_ok columns primes_set) new_points.
Proof.
  intros Hc. induction positions as [| pos positions IH]; intros prime_points.
  - exists []. cbn. rewrite app_nil_r. split; [reflexivity | split; [reflexivity | apply Forall_nil_2]].
  - cbn [grid_loop]. unfold Py.mod_, Py.floordiv. rewrite filter_cons.
    destruct (columns =? 0) eqn:Hc0; [apply Z.eqb_eq in Hc0; contradiction |].
    cbn [mbind outcome_bind].
    destruct (decide (pos ∈ primes_set)) as [Hin | Hnin].
    + rewrite (bool_decide_eq_true_2 _ Hin).
      destruct (classify_prime_returns pos primes_set) as [label Hlabel].
      rewrite Hlabel. cbn [mbind outcome_bind].
      destruct (IH (prime_points ++ [(pos mod columns, pos / columns, label)]))
        as (new_points & -> & Hpos & Hok).
      exists ((pos mod columns, pos / columns, label) :: new_points).
      split; [rewrite <- app_assoc; reflexivity |]. split.
      * rewrite fmap_cons, point_position_div_mod by exact Hc.
        rewrite Hpos. reflexivity.
      * apply Forall_cons. split; [| exact Hok].
        unfold point_ok. rewrite point_position_div_mod by exact Hc.
        cbn [fst snd]. auto.
    + rewrite (bool_decide_eq_false_2 _ Hnin).
      destruct (IH prime_points) as (new_points & -> & Hpos & Hok).
      exists new_points. auto.
Qed.

Lemma create_prime_grid_spec (bound columns rows : Z) :
  columns <> 0 ->
  exists prime_points,
    create_prime_grid bound columns rows = Ret prime_points
    /\ point_position columns <$> prime_points = prime_positions bound
    /\ Forall (point_ok columns (generate_primes_set bound)) prime_points.
Proof.
  intros Hc. unfold create_prime_grid, prime_positions.
  destruct (grid_loop_spec columns (generate_primes_set bound)
              (Py.range2 0 bound) Hc []) as (pts & Hrun & Hpos & Hok).
  exists pts. auto.
Qed.

Lemma elem_of_prime_positions (bound p : Z) :
  p ∈ prime_positions bound <-> Z.prime p /\ p < bound.
Proof.
  unfold prime_positions, Py.range2.
  rewrite list_elem_of_filter, generate_primes_set_spec, elem_of_seqZ. split.
  - intros [[Hp _] Hr]. split; [exact Hp | lia].
  - intros [Hp Hlt]. pose proof (Z.prime_ge_2 p Hp). split; [split; [exact Hp | lia] | lia].
Qed.

Lemma prime_positions_NoDup (bound : Z) : NoDup (prime_positions bound).
Proof. apply NoDup_filter, NoDup_seqZ. Qed.

(** The sieve's set holds the grid's primes, and [bound] itself when it is
    prime: position [bound] is not a cell of the grid. *)
Lemma primes_set_split (bound : Z) :
  generate_primes_set bound
  = list_to_set (prime_positions bound)
    ∪ (if is_prime bound then {[bound]} else ∅).
Proof.
  apply set_eq. intros p.
  rewrite elem_of_union, elem_of_list_to_set, elem_of_prime_positions,
    generate_primes_set_spec.
  destruct (is_prime bound) eqn:Hb.
  - rewrite elem_of_singleton. apply is_prime_spec in Hb. split.
    + intros [Hp Hle]. destruct (decide (p = bound)) as [-> | Hne]; [right; reflexivity |].
      left. split; [exact Hp | lia].
    + intros [[Hp Hlt] | ->]; [split; [exact Hp | lia] | split; [exact Hb | lia]].
  - apply is_prime_false in Hb. split.
    + intros [Hp Hle]. left. split; [exact Hp |].
      destruct (decide (p = bound)) as [-> | Hne]; [contradiction | lia].
    + intros [[Hp Hlt] | Hin]; [split; [exact Hp | lia] |].
      apply not_elem_of_empty in Hin. contradiction.
Qed.

Lemma primes_set_size (bound : Z) :
  size (generate_primes_set bound)
  = (length (prime_positions bound) + (if is_prime bound then 1 else 0))%nat.
Proof.
  rewrite primes_set_split, size_union.
  - rewrite size_list_to_set by apply prime_positions_NoDup.
    destruct (is_prime bound); [rewrite size_singleton | rewrite size_empty]; reflexivity.
  - intros p Hl Hr. apply elem_of_list_to_set, elem_of_prime_positions in Hl as [_ Hlt].
    destruct (is_prime bound).
    + apply elem_of_singleton in Hr. lia.
    + apply not_elem_of_empty in Hr. exact Hr.
Qed.

Lemma generate_statistics_total (prime_points : list point)
      (columns rows dot_size spacing : Z) (stats : statistics) :
  generate_statistics prime_points columns rows dot_size spacing = Ret stats ->
  total_primes stats = Z.of_nat (length prime_points).
Proof.
  unfold generate_statistics, calculate_dimensions.
  destruct (columns * rows =? 0); [discriminate |].
  intros Hst. injection Hst as <-. reflexivity.
Qed.

Lemma generate_statistics_returns (prime_points : list point)
      (columns rows dot_size spacing : Z) :
  columns * rows <> 0 ->
  exists stats,
    generate_statistics prime_points columns rows dot_size spacing = Ret stats.
Proof.
  intros Hne. unfold generate_statistics, calculate_dimensions.
  apply Z.eqb_neq in Hne. rewrite Hne. eexists. reflexivity.
Qed.

End Grid.

(** ** Bounded loops: extra fuel changes nothing *)

Section Fuel.

Lemma factorial_loop_more_fuel (fuel : nat) : forall n factorial i k,
  20 <= i + Z.of_nat fuel ->
  factorial_loop (fuel + k) n factorial i = factorial_loop fuel n factorial i.
Proof.
  induction fuel as [| fuel IH]; intros n factorial i k Hi.
  - cbn [Nat.add factorial_loop]. destruct k as [| k]; [reflexivity |].
    cbn [factorial_loop].
    assert (Hge : (i <? 20) = false) by (apply Z.ltb_ge; lia).
    rewrite Hge, andb_false_r. reflexivity.
  - cbn [Nat.add factorial_loop].
    destruct ((factorial <? n + 1) && (i <? 20)); [| reflexivity].
    destruct ((n =? factorial * i - 1) || (n =? factorial * i + 1)); [reflexivity |].
    apply IH. lia.
Qed.

Lemma is_prime_loop_more_fuel (fuel : nat) : forall n i b fuel',
  is_prime_loop fuel n i = Some b -> (fuel <= fuel')%nat ->
  is_prime_loop fuel' n i = Some b.
Proof.
  induction fuel as [| fuel IH]; intros n i b fuel' Hrun Hle; [discriminate |].
  destruct fuel' as [| fuel']; [lia |].
  cbn [is_prime_loop] in *.
  destruct (i * i <=? n); [| exact Hrun].
  destruct ((n mod i =? 0) || (n mod (i + 2) =? 0)); [exact Hrun |].
  apply (IH _ _ _ fuel' Hrun). lia.
Qed.

End Fuel.

(** * The engine's properties *)

(** C1, as the code has it.  The grid pass visits the positions
    [0 .. bound-1]: for [bound >= 0] and [columns > 0] it returns a point list
    with exactly one entry per prime below [bound] (each entry records
    [x = pos mod columns], [y = pos div columns] and the family of [pos]), with
    no duplicates.  Whenever the statistics are produced, [total_primes] is the
    length of that list; the sieve's set for [bound] has that many members,
    plus one when [bound] itself is prime.  With [bound = 30] and
    [columns = 6] there are exactly 10 points and [total_primes] is 10. *)
Theorem create_prime_grid_primes_below_bound (bound columns rows : Z) :
  0 <= bound -> 0 < columns ->
  (exists prime_points,
      create_prime_grid bound columns rows = Ret prime_points
      /\ NoDup prime_points
      /\ NoDup (point_position columns <$> prime_points)
      /\ (forall p, p ∈ (point_position columns <$> prime_points)
                    <-> Z.prime p /\ p < bound)
      /\ Forall (point_ok columns (generate_primes_set bound)) prime_points
      /\ size (generate_primes_set bound)
         = (length prime_points + (if is_prime bound then 1 else 0))%nat
      /\ (forall dot_size spacing stats,
             generate_statistics prime_points columns rows dot_size spacing
             = Ret stats ->
             total_primes stats = Z.of_nat (length prime_points))
      /\ (columns * rows <> 0 ->
          forall dot_size spacing, exists stats,
            generate_statistics prime_points columns rows dot_size spacing
            = Ret stats))
  /\ (exists prime_points,
         create_prime_grid 30 6 5 = Ret prime_points
         /\ length prime_points = 10%nat
         /\ forall dot_size spacing, exists stats,
             generate_statistics prime_points 6 5 dot_size spacing = Ret stats
             /\ total_primes stats = 10).
Proof.
  intros Hb Hc. split.
  - destruct (create_prime_grid_spec bound columns rows ltac:(lia))
      as (pts & Hrun & Hpos & Hok).
    exists pts. split; [exact Hrun |].
    assert (Hnd : NoDup (point_position columns <$> pts)).
    { rewrite Hpos. apply prime_positions_NoDup. }
    split; [apply (NoDup_fmap_1 (point_position columns)), Hnd |].
    split; [exact Hnd |].
    split; [intros p; rewrite Hpos; apply elem_of_prime_positions |].
    split; [exact Hok |].
    split; [rewrite primes_set_size, <- Hpos, length_fmap; reflexivity |].
    split.
    + intros dot_size spacing stats. apply generate_statistics_total.
    + intros Hne dot_size spacing. apply generate_statistics_returns, Hne.
  - eexists. split; [vm_compute; reflexivity |].
    split; [reflexivity |].
    intros dot_size spacing. eexists. split; reflexivity.
Qed.

Lemma create_prime_grid_primes_below_bound_witness :
  exists prime_points,
    create_prime_grid 12 4 3 = Ret prime_points
    /\ forall p, p ∈ (point_position 4 <$> prime_points) <-> Z.prime p /\ p < 12.
Proof.
  destruct (create_prime_grid_primes_below_bound 12 4 3 ltac:(lia) ltac:(lia))
    as [(pts & Hrun & _ & _ & Hmem & _) _].
  exists pts. split; [exact Hrun | exact Hmem].
Defined.

(** C1 as stated fails when [bound] is prime: with [bound = 7] the sieve's
    set holds 7, but position 7 is outside [range(7)], so the list has three
    points for the four primes up to 7. *)
Lemma create_prime_grid_misses_prime_bound :
  exists prime_points,
    create_prime_grid 7 7 1 = Ret prime_points
    /\ Z.prime 7 /\ (7 <= 7)
    /\ (7 ∉ point_position 7 <$> prime_points)
    /\ length prime_points = 3%nat
    /\ size (generate_primes_set 7) = 4%nat.
Proof.
  eexists. split; [vm_compute; reflexivity |].
  split; [apply is_prime_spec; reflexivity |].
  split; [lia |].
  split.
  - intros Hin. cbv [fmap list_fmap point_position fst snd] in Hin.
    repeat (apply elem_of_cons in Hin as [Hin | Hin]; [lia |]).
    apply elem_of_nil in Hin. exact Hin.
  - split; [reflexivity | vm_compute; reflexivity].
Qed.

(** C2.  For a prime [n] of [primes_set], [classify_prime] tries the family
    tests in the order mersenne, factorial, wieferich, fibonacci, twin, sexy,
    isolated, safe, sophie_germain, chen, palindromic, circular, cuban, happy,
    returns the label of the first test that is true, and ["regular_prime"]
    when none is.  So 7 is a ["mersenne_prime"] although it is a twin prime
    too, and 2 is a ["factorial_prime"]. *)
Theorem classify_prime_priority (n : Z) (primes_set : gset Z) :
  is_prime n = true -> n ∈ primes_set ->
  rule_table.*1
  = [ "mersenne_prime"; "factorial_prime"; "wieferich_prime"; "fibonacci_prime";
      "twin_prime"; "sexy_prime"; "isolated_prime"; "safe_prime";
      "sophie_germain_prime"; "chen_prime"; "palindromic_prime";
      "circular_prime"; "cuban_prime"; "happy_prime" ]%string
  /\ (exists label,
         classify_prime n primes_set = Ret label
         /\ first_true_label rule_table n primes_set label)
  /\ classify_prime 7 (generate_primes_set 30) = Ret "mersenne_prime"%string
  /\ is_twin_prime 7 (generate_primes_set 30) = true
  /\ classify_prime 2 (generate_primes_set 30) = Ret "factorial_prime"%string.
Proof.
  intros Hn Hin. split; [reflexivity |]. split.
  - destruct (classify_prime_returns n primes_set) as [label Hlabel].
    exists label. split; [exact Hlabel |].
    apply first_match_spec. rewrite <- classify_prime_first_match. exact Hlabel.
  - split; [vm_compute; reflexivity |].
    split; vm_compute; reflexivity.
Qed.

Lemma classify_prime_priority_witness :
  exists label,
    classify_prime 13 (generate_primes_set 30) = Ret label
    /\ first_true_label rule_table 13 (generate_primes_set 30) label.
Proof.
  apply (classify_prime_priority 13 (generate_primes_set 30)).
  - vm_compute. reflexivity.
  - apply (bool_decide_unpack _). vm_compute. exact I.
Defined.

(** C3, as the code has it.  A negative bound is not an error: the guard
    [if limit < 2: return []] answers it with the empty list. *)
Theorem generate_primes_negative_empty (bound : Z) :
  bound < 0 ->
  generate_primes bound = [] /\ generate_primes_set bound = ∅.
Proof.
  intros Hb. unfold generate_primes_set, generate_primes.
  assert (Hlt : (bound <? 2) = true) by (apply Z.ltb_lt; lia).
  rewrite Hlt. split; reflexivity.
Qed.

Lemma generate_primes_negative_empty_witness :
  generate_primes (-5) = [] /\ generate_primes_set (-5) = ∅.
Proof. apply (generate_primes_negative_empty (-5)). lia. Defined.

(** C3 as stated fails: [generate_primes(-1)] returns a normal result, the
    empty list; the function has no failing path. *)
Lemma generate_primes_negative_returns :
  (-1 < 0) /\ generate_primes (-1) = [].
Proof. split; [lia | reflexivity]. Qed.

(** C4.  For [bound >= 0], [generate_primes bound] holds exactly the primes of
    [0 .. bound]: 0 and 1 are out, no composite is in, no prime up to [bound]
    is missing, nothing is listed twice, and the list is empty when
    [bound < 2].  For 30 it is [2,3,5,7,11,13,17,19,23,29]. *)
Theorem generate_primes_exact (bound : Z) :
  0 <= bound ->
  (forall n, n ∈ generate_primes bound <-> Z.prime n /\ 0 <= n <= bound)
  /\ (0 ∉ generate_primes bound) /\ (1 ∉ generate_primes bound)
  /\ (forall n d, n ∈ generate_primes bound -> 1 < d < n -> ~ (d | n))
  /\ NoDup (generate_primes bound)
  /\ (bound < 2 -> generate_primes bound = [])
  /\ generate_primes 30 = [2; 3; 5; 7; 11; 13; 17; 19; 23; 29].
Proof.
  intros Hb.
  assert (Hmem : forall n, n ∈ generate_primes bound <-> Z.prime n /\ 0 <= n <= bound).
  { intros n. rewrite generate_primes_spec. split.
    - intros [Hp Hle]. pose proof (Z.prime_ge_2 n Hp). split; [exact Hp | lia].
    - intros [Hp Hle]. split; [exact Hp | lia]. }
  split; [exact Hmem |].
  split; [intros H0; apply Hmem in H0 as [Hp _]; exact (Z.not_prime_0 Hp) |].
  split; [intros H1; apply Hmem in H1 as [Hp _]; exact (Z.not_prime_1 Hp) |].
  split.
  { intros n d Hin Hd. apply Hmem in Hin as [[_ Hp] _]. apply Hp, Hd. }
  split; [apply generate_primes_NoDup |].
  split; [| vm_compute; reflexivity].
  intros Hlt. unfold generate_primes.
  assert (Hl : (bound <? 2) = true) by (apply Z.ltb_lt; lia).
  rewrite Hl. reflexivity.
Qed.

Lemma generate_primes_exact_witness :
  (47 ∈ generate_primes 50 <-> Z.prime 47 /\ 0 <= 47 <= 50)
  /\ (0 ∉ generate_primes 50) /\ (1 ∉ generate_primes 50)
  /\ NoDup (generate_primes 50).
Proof.
  destruct (generate_primes_exact 50 ltac:(lia)) as (Hmem & H0 & H1 & _ & Hnd & _).
  split; [apply Hmem | split; [exact H0 | split; [exact H1 | exact Hnd]]].
Defined.

(** C5.  Trial division and the sieve agree: for [0 <= n <= N], [is_prime n]
    is true exactly when [n] is a member of [generate_primes N]. *)
Theorem is_prime_agrees_with_sieve (N n : Z) :
  0 <= N -> 0 <= n <= N ->
  is_prime n = true <-> n ∈ generate_primes N.
Proof.
  intros HN Hn. rewrite is_prime_spec, generate_primes_spec. split.
  - intros Hp. split; [exact Hp | lia].
  - intros [Hp _]. exact Hp.
Qed.

Lemma is_prime_agrees_with_sieve_witness :
  is_prime 91 = true <-> 91 ∈ generate_primes 100.
Proof. apply (is_prime_agrees_with_sieve 100 91); lia. Defined.

(** C6.  For every [n >= 0] the happy-number loop leaves by itself: it stops
    at 1 or at a value already in the visited set, before the fuel handed to
    it is used up and with the same result for any larger fuel, so no
    iteration cap decides the answer.  7 is a happy prime, 11 is not. *)
Theorem is_happy_number_terminates (n : Z) :
  0 <= n ->
  (exists n' seen',
      (forall fuel, (happy_fuel n <= fuel)%nat ->
                    happy_loop fuel n ∅ = Ret (n', seen'))
      /\ (n' = 1 \/ n' ∈ seen')
      /\ is_happy_number n = Ret (n' =? 1))
  /\ is_happy_prime 7 = Ret true
  /\ is_happy_prime 11 = Ret false.
Proof.
  intros Hn. split; [| split; vm_compute; reflexivity].
  destruct (is_happy_number_returns n Hn) as (n' & seen' & Hrun & Hexit & Hres).
  exists n', seen'. split; [| split; assumption].
  intros fuel Hfuel. apply (happy_loop_more_fuel _ _ _ _ _ Hrun Hfuel).
Qed.

Lemma is_happy_number_terminates_witness :
  exists n' seen',
    (forall fuel, (happy_fuel 4 <= fuel)%nat ->
                  happy_loop fuel 4 ∅ = Ret (n', seen'))
    /\ (n' = 1 \/ n' ∈ seen')
    /\ is_happy_number 4 = Ret (n' =? 1).
Proof. apply (is_happy_number_terminates 4). lia. Defined.

(** C7.  For a prime [n], [is_chen_prime n] is true exactly when [n + 2] is
    prime or a product of exactly two primes, equal or not. *)
Theorem is_chen_prime_iff (n : Z) :
  Z.prime n ->
  is_chen_prime n = true <-> Z.prime (n + 2) \/ semiprime (n + 2).
Proof.
  intros Hn. pose proof (Z.prime_ge_2 n Hn) as Hn2.
  unfold is_chen_prime. rewrite (proj2 (is_prime_spec n) Hn). cbn [negb].
  destruct (is_prime (n + 2)) eqn:Hp2.
  - split; [intros _; left; apply is_prime_spec, Hp2 | reflexivity].
  - apply is_prime_false in Hp2.
    destruct (n + 2 <? 4) eqn:H4; [apply Z.ltb_lt in H4; lia |].
    set (m := n + 2) in *.
    assert (Hs : 2 <= Z.sqrt m) by (apply Z.sqrt_le_square; lia).
    unfold Py.range2, Py.int_sqrt.
    replace (Z.sqrt m + 1 - 2) with (Z.of_nat (Z.to_nat (Z.sqrt m - 1))) by lia.
    pose proof (find_first (fun i => m mod i =? 0) (Z.to_nat (Z.sqrt m - 1)) 2) as Hfind.
    destruct (List.find _ _) as [i |].
    + destruct Hfind as (Hi & Hfi & Hmin).
      assert (Hdiv : (i | m)) by (apply mod_eq_0_divide; [lia | exact Hfi]).
      assert (Hip : Z.prime i) by (apply (least_divisor_prime m); [lia | exact Hdiv | exact Hmin]).
      rewrite (proj2 (is_prime_spec i) Hip). cbn [andb].
      rewrite is_prime_spec. split.
      * intros Hq. right. exists i, (m / i).
        split; [exact Hip | split; [exact Hq |]].
        apply Z.div_exact; [lia |]. apply Z.eqb_eq, Hfi.
      * intros [Hpm | Hsemi]; [contradiction |].
        apply semiprime_cofactor; assumption.
    + exfalso. apply Hp2. apply no_small_divisor_prime; [lia |].
      intros d Hd Hdd. apply mod_neq_0_not_divide; [lia |].
      apply Hfind.
      assert (Hle : d <= Z.sqrt m) by (apply Z.sqrt_le_square; lia). lia.
Qed.

Lemma is_chen_prime_iff_witness :
  is_chen_prime 43 = true <-> Z.prime (43 + 2) \/ semiprime (43 + 2).
Proof.
  apply (is_chen_prime_iff 43). apply is_prime_spec. vm_compute. reflexivity.
Defined.



(** C9.  [classify_prime] checks no precondition and never raises on a
    non-prime: when [is_prime n] is false (negative [n] included) and every
    member of [primes_set] is prime, every family test is false and the
    result is ["regular_prime"]. *)
Theorem classify_prime_non_prime (n : Z) (primes_set : gset Z) :
  is_prime n = false ->
  (forall p, p ∈ primes_set -> Z.prime p) ->
  classify_prime n primes_set = Ret "regular_prime"%string
  /\ Forall (fun r : rule => r.2 n primes_set = Ret false) rule_table.
Proof.
  intros Hn Hps.
  assert (Hall : Forall (fun r : rule => r.2 n primes_set = Ret false) rule_table).
  { apply rule_table_not_prime; [exact Hn |].
    intros p Hp. apply is_prime_spec, Hps, Hp. }
  split; [| exact Hall].
  rewrite classify_prime_first_match. apply first_match_all_false, Hall.
Qed.

Lemma classify_prime_non_prime_witness :
  classify_prime (-9) (generate_primes_set 20) = Ret "regular_prime"%string
  /\ Forall (fun r : rule => r.2 (-9) (generate_primes_set 20) = Ret false)
            rule_table.
Proof.
  apply (classify_prime_non_prime (-9) (generate_primes_set 20)).
  - vm_compute. reflexivity.
  - intros p Hp. apply generate_primes_set_spec in Hp. exact (proj1 Hp).
Defined.

(** C10.  Twin and isolated are complements on the primes of the set: when
    [is_prime n] is true and [n] is in [primes_set], [is_isolated_prime] is
    true exactly when [is_twin_prime] is false. *)
Theorem isolated_iff_not_twin (n : Z) (primes_set : gset Z) :
  is_prime n = true -> n ∈ primes_set ->
  is_isolated_prime n primes_set = true <-> is_twin_prime n primes_set = false.
Proof.
  intros Hn Hin. unfold is_isolated_prime, is_twin_prime.
  rewrite Hn, (bool_decide_eq_true_2 _ Hin). cbn [andb].
  destruct (bool_decide (n - 2 ∈ primes_set)), (bool_decide (n + 2 ∈ primes_set));
    cbn; split; congruence.
Qed.

Lemma isolated_iff_not_twin_witness :
  is_isolated_prime 23 (generate_primes_set 30) = true
  <-> is_twin_prime 23 (generate_primes_set 30) = false.
Proof.
  apply (isolated_iff_not_twin 23 (generate_primes_set 30)).
  - vm_compute. reflexivity.
  - apply (bool_decide_unpack _). vm_compute. exact I.
Defined.

(** * Further properties of the engine *)

(** ** The sieve's list: ascending, and stable under a larger limit *)

Section SieveList.

Lemma filter_agree {A : Type} (P Q : A -> Prop)
      `{!forall x, Decision (P x)} `{!forall x, Decision (Q x)} (l : list A) :
  (forall x, x ∈ l -> (P x <-> Q x)) -> filter P l = filter Q l.
Proof.
  induction l as [| x l IH]; intros Hagree; [reflexivity |].
  rewrite !filter_cons.
  assert (Hx : P x <-> Q x) by (apply Hagree, elem_of_cons; left; reflexivity).
  rewrite IH by (intros y Hy; apply Hagree, elem_of_cons; right; exact Hy).
  destruct (decide (P x)) as [HP | HnP], (decide (Q x)) as [HQ | HnQ];
    [reflexivity | tauto | tauto | reflexivity].
Qed.

Lemma filter_none {A : Type} (P : A -> Prop) `{!forall x, Decision (P x)}
      (l : list A) :
  (forall x, x ∈ l -> ~ P x) -> filter P l = [].
Proof.
  induction l as [| x l IH]; intros Hnone; [reflexivity |].
  rewrite filter_cons_False by (apply Hnone, elem_of_cons; left; reflexivity).
  apply IH. intros y Hy. apply Hnone, elem_of_cons. right. exact Hy.
Qed.

(** The sieve's list is the trial-division filter of [0 .. limit]. *)
Lemma generate_primes_filter (limit : Z) :
  generate_primes limit
  = filter (fun i => is_prime i = true) (seqZ 0 (limit + 1)).
Proof.
  unfold generate_primes. destruct (limit <? 2) eqn:Hl.
  - apply Z.ltb_lt in Hl. symmetry. apply filter_none.
    intros x Hx Hp. apply elem_of_seqZ in Hx.
    apply is_prime_ge_2 in Hp. lia.
  - apply Z.ltb_ge in Hl. cbv zeta. unfold Py.range2.
    rewrite Z.sub_0_r. apply filter_agree.
    intros x Hx. apply elem_of_seqZ in Hx.
    rewrite is_prime_spec. apply run_sieve_prime; lia.
Qed.

Lemma seqZ_sorted (len : nat) : forall a,
  StronglySorted Z.lt (seqZ a (Z.of_nat len)).
Proof.
  induction len as [| len IH]; intros a.
  - cbn. constructor.
  - rewrite seqZ_cons by lia.
    replace (Z.pred (Z.of_nat (S len))) with (Z.of_nat len) by lia.
    constructor; [apply IH |].
    apply Forall_forall. intros x Hx. apply elem_of_seqZ in Hx. lia.
Qed.

Lemma filter_sorted {A : Type} (R : relation A) (P : A -> Prop)
      `{!forall x, Decision (P x)} (l : list A) :
  StronglySorted R l -> StronglySorted R (filter P l).
Proof.
  induction 1 as [| x l Hs IH Hx]; [constructor |].
  rewrite filter_cons. destruct (decide (P x)); [| exact IH].
  constructor; [exact IH |].
  apply Forall_forall. intros y Hy. apply list_elem_of_filter in Hy as [_ Hy].
  rewrite Forall_forall in Hx. apply Hx, Hy.
Qed.

Lemma generate_primes_split (a b : Z) :
  a <= b ->
  generate_primes b
  = generate_primes a
    ++ filter (fun i => is_prime i = true) (seqZ (a + 1) (b - a)).
Proof.
  intros Hab. rewrite !generate_primes_filter.
  destruct (Z_lt_le_dec a (-1)) as [Hneg | Hpos].
  - rewrite (seqZ_nil 0 (a + 1)) by lia. rewrite filter_nil, app_nil_l.
    destruct (Z_lt_le_dec b (-1)) as [Hbneg | Hbpos].
    + rewrite (seqZ_nil 0 (b + 1)) by lia. rewrite filter_nil.
      symmetry. apply filter_none.
      intros x Hx Hp. apply elem_of_seqZ in Hx. apply is_prime_ge_2 in Hp. lia.
    + replace (b - a) with ((-1 - a) + (b + 1)) by lia.
      rewrite (seqZ_app (a + 1) (-1 - a) (b + 1)) by lia. rewrite filter_app.
      replace (a + 1 + (-1 - a)) with 0 by lia.
      rewrite (filter_none _ (seqZ (a + 1) (-1 - a))); [reflexivity |].
      intros x Hx Hp. apply elem_of_seqZ in Hx. apply is_prime_ge_2 in Hp. lia.
  - replace (b + 1) with ((a + 1) + (b - a)) by lia.
    rewrite (seqZ_app 0 (a + 1) (b - a)) by lia.
    rewrite filter_app, Z.add_0_l. reflexivity.
Qed.

End SieveList.

(** X1.  [is_prime n] is true exactly when [n > 1] and no [d] with
    [1 < d < n] divides [n]; in particular it is false for every [n <= 1]. *)
Theorem is_prime_exact (n : Z) :
  is_prime n = true <-> 1 < n /\ forall d, 1 < d < n -> ~ (d | n).
Proof. rewrite is_prime_spec. unfold Z.prime. reflexivity. Qed.

(** X2.  [generate_primes] lists the primes in strictly ascending order. *)
Theorem generate_primes_ascending (limit : Z) :
  StronglySorted Z.lt (generate_primes limit).
Proof.
  rewrite generate_primes_filter. apply filter_sorted.
  destruct (Z_lt_le_dec (limit + 1) 0) as [Hneg | Hpos].
  - rewrite seqZ_nil by lia. constructor.
  - rewrite <- (Z2Nat.id (limit + 1)) by lia. apply seqZ_sorted.
Qed.

(** X3.  Raising the limit only appends: for [a <= b] the list for [b] is the
    list for [a] followed by primes of [a+1 .. b]. *)
Theorem generate_primes_prefix (a b : Z) :
  a <= b ->
  exists rest,
    generate_primes b = generate_primes a ++ rest
    /\ Forall (fun p => a < p <= b /\ Z.prime p) rest.
Proof.
  intros Hab. eexists. split; [apply generate_primes_split, Hab |].
  apply Forall_forall. intros p Hp.
  apply list_elem_of_filter in Hp as [Hprime Hp].
  apply elem_of_seqZ in Hp. apply is_prime_spec in Hprime.
  split; [lia | exact Hprime].
Qed.

Lemma generate_primes_prefix_witness :
  exists rest,
    generate_primes 20 = generate_primes 10 ++ rest
    /\ Forall (fun p => 10 < p <= 20 /\ Z.prime p) rest.
Proof. apply (generate_primes_prefix 10 20). lia. Defined.

(** ** [nth_prime] *)

Section NthPrimeFacts.

Lemma list_item_nonneg {A : Type} (l : list A) (i : Z) (x : A) :
  0 <= i -> list_item l i = Done x -> l !! Z.to_nat i = Some x.
Proof.
  intros Hi. unfold list_item.
  destruct (i <? 0) eqn:Hneg; [apply Z.ltb_lt in Hneg; lia |].
  rewrite Hneg. destruct (l !! Z.to_nat i); [congruence | discriminate].
Qed.

(** A prime that sits at index [i] of the sieve's list has exactly [i]
    primes below it. *)
Lemma generate_primes_index (limit p : Z) (i : nat) :
  generate_primes limit !! i = Some p ->
  Z.prime p /\ length (generate_primes p) = S i.
Proof.
  intros Hi.
  assert (Hin : p ∈ generate_primes limit) by (apply list_elem_of_lookup; eauto).
  apply generate_primes_spec in Hin as [Hp Hle].
  split; [exact Hp |].
  pose proof (generate_primes_split (p - 1) p ltac:(lia)) as Hlast.
  replace (p - 1 + 1) with p in Hlast by lia.
  replace (p - (p - 1)) with 1 in Hlast by lia.
  change (seqZ p 1) with [p] in Hlast.
  rewrite filter_cons_True in Hlast by (apply is_prime_spec, Hp).
  rewrite filter_nil in Hlast.
  pose proof (generate_primes_split p limit Hle) as Hall.
  rewrite Hlast in Hall.
  assert (Hmid : generate_primes limit !! length (generate_primes (p - 1)) = Some p).
  { rewrite Hall, <- app_assoc. apply list_lookup_middle. reflexivity. }
  pose proof (NoDup_lookup _ _ _ _ (generate_primes_NoDup limit) Hi Hmid) as Heq.
  rewrite Hlast, length_app. cbn [length]. lia.
Qed.

End NthPrimeFacts.

(** X4.  Whatever the search bound is, a value returned by [nth_prime] for
    [n] is the n-th prime: it is prime and exactly [n] primes are at most
    it. *)
Theorem nth_prime_result (limit_estimate : Z -> Z) (fuel : nat) (n p : Z) :
  nth_prime limit_estimate fuel n = Done p ->
  1 <= n /\ Z.prime p /\ Z.of_nat (length (generate_primes p)) = n.
Proof.
  revert n p. induction fuel as [| fuel IH]; intros n p Hrun; [discriminate |].
  cbn [nth_prime] in Hrun.
  destruct (n <? 1) eqn:H1; [discriminate |]. apply Z.ltb_ge in H1.
  destruct (n <? 6) eqn:H6.
  - apply Z.ltb_lt in H6. split; [exact H1 |].
    assert (Hc : n = 1 \/ n = 2 \/ n = 3 \/ n = 4 \/ n = 5) by lia.
    destruct Hc as [-> | [-> | [-> | [-> | ->]]]];
      injection Hrun as <-;
      (split; [apply is_prime_spec; reflexivity | vm_compute; reflexivity]).
  - apply Z.ltb_ge in H6. cbv zeta in Hrun.
    destruct (n <=? Z.of_nat (length (generate_primes (limit_estimate n)))) eqn:Hlen.
    + apply list_item_nonneg in Hrun; [| lia].
      destruct (generate_primes_index _ _ _ Hrun) as [Hp Hcount].
      split; [exact H1 | split; [exact Hp |]]. rewrite Hcount. lia.
    + apply IH, Hrun.
Qed.

Lemma nth_prime_result_witness :
  1 <= 6 /\ Z.prime 13 /\ Z.of_nat (length (generate_primes 13)) = 6.
Proof.
  apply (nth_prime_result (fun n => n * n) 1 6 13). vm_compute. reflexivity.
Defined.



(** ** Mersenne and factorial primes *)

Section MersenneFactorial.

(** [m & (m - 1) == 0] singles out the powers of two. *)
Lemma land_pred_power_of_two (m : Z) :
  0 < m -> Z.land m (m - 1) = 0 <-> m = 2 ^ Z.log2 m.
Proof.
  intros Hm. pose proof (Z.log2_nonneg m) as Hk.
  pose proof (Z.log2_spec m Hm) as [Hlo Hhi]. split.
  - intros Hland.
    destruct (Z.eq_dec m (2 ^ Z.log2 m)) as [Heq | Hne]; [exact Heq | exfalso].
    assert (Hlog : Z.log2 (m - 1) = Z.log2 m).
    { apply Z.log2_unique; [exact Hk | lia]. }
    assert (Hbit : Z.testbit (Z.land m (m - 1)) (Z.log2 m) = true).
    { rewrite Z.land_spec, (Z.bit_log2 m Hm).
      rewrite <- Hlog. rewrite Z.bit_log2; [reflexivity |].
      assert (0 < 2 ^ Z.log2 m) by (apply Z.pow_pos_nonneg; lia). lia. }
    rewrite Hland, Z.bits_0 in Hbit. discriminate.
  - intros Heq. rewrite Heq at 1 2.
    replace (2 ^ Z.log2 m - 1) with (Z.ones (Z.log2 m))
      by (rewrite Z.ones_equiv; lia).
    rewrite Z.land_ones by exact Hk. apply Z.mod_same.
    assert (0 < 2 ^ Z.log2 m) by (apply Z.pow_pos_nonneg; lia). lia.
Qed.

Lemma factorial_Z_pos (k : nat) : 1 <= factorial_Z k.
Proof. induction k as [| k IH]; cbn [factorial_Z]; [lia | nia]. Qed.

Lemma factorial_Z_mono (j k : nat) :
  (j <= k)%nat -> factorial_Z j <= factorial_Z k.
Proof.
  induction 1 as [| k Hle IH]; [lia |].
  cbn [factorial_Z]. pose proof (factorial_Z_pos k). nia.
Qed.

(** The loop entered with [factorial = j!] and [i = j + 1] finds [n] exactly
    when [n = k! - 1] or [n = k! + 1] for one of the remaining [k]. *)
Lemma factorial_loop_spec (n : Z) (fuel : nat) : forall j : nat,
  2 <= n -> (fuel + j = 19)%nat ->
  factorial_loop fuel n (factorial_Z j) (Z.of_nat j + 1) = true
  <-> exists k : nat, (j < k < 20)%nat
                      /\ (n = factorial_Z k - 1 \/ n = factorial_Z k + 1).
Proof.
  induction fuel as [| fuel IH]; intros j Hn Hj.
  - cbn [factorial_loop]. split; [discriminate |].
    intros (k & Hk & _). lia.
  - cbn [factorial_loop].
    assert (Hi : (Z.of_nat j + 1 <? 20) = true) by (apply Z.ltb_lt; lia).
    rewrite Hi, andb_true_r.
    assert (Hnext : factorial_Z j * (Z.of_nat j + 1) = factorial_Z (S j)).
    { cbn [factorial_Z]. f_equal. lia. }
    rewrite Hnext.
    destruct (factorial_Z j <? n + 1) eqn:Hguard.
    + destruct ((n =? factorial_Z (S j) - 1) || (n =? factorial_Z (S j) + 1)) eqn:Hhit.
      * split; [intros _ | reflexivity].
        exists (S j). split; [lia |].
        apply orb_true_iff in Hhit as [Hhit | Hhit]; apply Z.eqb_eq in Hhit; lia.
      * apply orb_false_iff in Hhit as [Hm Hp].
        apply Z.eqb_neq in Hm, Hp.
        replace (Z.of_nat j + 1 + 1) with (Z.of_nat (S j) + 1) by lia.
        rewrite (IH (S j) Hn ltac:(lia)). split.
        -- intros (k & Hk & Hnk). exists k. split; [lia | exact Hnk].
        -- intros (k & Hk & Hnk). exists k. split; [| exact Hnk].
           destruct (decide (k = S j)) as [-> | Hne]; [lia | lia].
    + apply Z.ltb_ge in Hguard. split; [discriminate |].
      intros (k & Hk & Hnk). exfalso.
      assert (Hj1 : (1 <= j)%nat).
      { destruct j as [| j]; [cbn in Hguard; lia | lia]. }
      pose proof (factorial_Z_mono (S j) k ltac:(lia)) as Hmono.
      pose proof (factorial_Z_pos j) as Hpos.
      rewrite <- Hnext in Hmono. nia.
Qed.

End MersenneFactorial.

(** X6.  [is_mersenne_prime n] is true exactly when [n] is prime and
    [n = 2^p - 1] for a prime exponent [p]. *)
Theorem is_mersenne_prime_iff (n : Z) :
  is_mersenne_prime n = true
  <-> Z.prime n /\ exists p, Z.prime p /\ n = 2 ^ p - 1.
Proof.
  unfold is_mersenne_prime. destruct (is_prime n) eqn:Hn; cbn [negb].
  - apply is_prime_spec in Hn. pose proof (Z.prime_ge_2 n Hn) as Hn2.
    destruct (Z.land (n + 1) (n + 1 - 1) =? 0) eqn:Hland; cbn [negb].
    + apply Z.eqb_eq in Hland.
      apply land_pred_power_of_two in Hland; [| lia].
      rewrite is_prime_spec. split.
      * intros Hp. split; [exact Hn |].
        exists (Z.log2 (n + 1)). split; [exact Hp | lia].
      * intros [_ (p & Hp & Heq)].
        pose proof (Z.prime_ge_2 p Hp) as Hp2.
        replace (n + 1) with (2 ^ p) by lia.
        rewrite Z.log2_pow2 by lia. exact Hp.
    + apply Z.eqb_neq in Hland. split; [discriminate |].
      intros [_ (p & Hp & Heq)]. exfalso. apply Hland.
      pose proof (Z.prime_ge_2 p Hp) as Hp2.
      apply land_pred_power_of_two; [lia |].
      replace (n + 1) with (2 ^ p) by lia.
      rewrite Z.log2_pow2 by lia. reflexivity.
  - apply is_prime_false in Hn. split; [discriminate | tauto].
Qed.

(** X7.  [is_factorial_prime n] is true exactly when [n] is prime and
    [n = k! - 1] or [n = k! + 1] for some [k] with [1 <= k < 20]: the guard
    [factorial < n + 1] never hides such a [k]. *)
Theorem is_factorial_prime_iff (n : Z) :
  is_factorial_prime n = true
  <-> Z.prime n
      /\ exists k : nat, (1 <= k < 20)%nat
                         /\ (n = factorial_Z k - 1 \/ n = factorial_Z k + 1).
Proof.
  unfold is_factorial_prime. destruct (is_prime n) eqn:Hn; cbn [negb].
  - apply is_prime_spec in Hn. pose proof (Z.prime_ge_2 n Hn) as Hn2.
    change (factorial_loop 19 n 1 1)
      with (factorial_loop 19 n (factorial_Z 0) (Z.of_nat 0 + 1)).
    rewrite (factorial_loop_spec n 19 0%nat Hn2 eq_refl). split.
    + intros (k & Hk & Hnk). split; [exact Hn |]. exists k. split; [lia | exact Hnk].
    + intros [_ (k & Hk & Hnk)]. exists k. split; [lia | exact Hnk].
  - apply is_prime_false in Hn. split; [discriminate | tauto].
Qed.

(** ** Fibonacci primes: the perfect-square test is exact *)

Section Fibonacci.








End Fibonacci.


(** X9.  [is_wieferich_prime] accepts exactly 1093 and 3511, and both are
    Wieferich primes: prime, with [2^(n-1)] congruent to 1 modulo [n²]. *)
Theorem is_wieferich_prime_sound (n : Z) :
  (is_wieferich_prime n = true <-> n = 1093 \/ n = 3511)
  /\ (is_wieferich_prime n = true ->
      Z.prime n /\ 2 ^ (n - 1) mod (n * n) = 1).
Proof.
  assert (Hiff : is_wieferich_prime n = true <-> n = 1093 \/ n = 3511).
  { unfold is_wieferich_prime. split.
    - destruct (is_prime n); cbn [negb]; [| discriminate].
      intros Hin. apply bool_decide_eq_true in Hin.
      apply elem_of_union in Hin as [Hin | Hin];
        apply elem_of_singleton in Hin; auto.
    - intros [-> | ->]; vm_compute; reflexivity. }
  split; [exact Hiff |].
  intros Hw. apply Hiff in Hw as [-> | ->];
    (split; [apply is_prime_spec; vm_compute; reflexivity | vm_compute; reflexivity]).
Qed.

(** X10.  [q] passes the Sophie Germain test exactly when [2q + 1] passes the
    safe-prime test, for every integer [q]. *)
Theorem sophie_germain_iff_safe (q : Z) :
  is_sophie_germain_prime q = is_safe_prime (2 * q + 1).
Proof.
  unfold is_sophie_germain_prime, is_safe_prime.
  replace ((2 * q + 1 - 1) / 2) with q
    by (symmetry; replace (2 * q + 1 - 1) with (q * 2) by lia; apply Z.div_mul; lia).
  destruct (is_prime q) eqn:Hq.
  - apply is_prime_ge_2 in Hq.
    assert (H2 : (2 <? 2 * q + 1) = true) by (apply Z.ltb_lt; lia).
    rewrite H2. cbn [andb]. rewrite andb_true_r. reflexivity.
  - rewrite andb_false_r. reflexivity.
Qed.

(** X11.  [is_safe_prime n] is true exactly when [n] is prime and
    [n = 2q + 1] for a prime [q]. *)
Theorem is_safe_prime_iff (n : Z) :
  is_safe_prime n = true <-> Z.prime n /\ exists q, Z.prime q /\ n = 2 * q + 1.
Proof.
  unfold is_safe_prime. rewrite !andb_true_iff, Z.ltb_lt, !is_prime_spec. split.
  - intros [[Hn2 Hn] Hq]. split; [exact Hn |].
    exists ((n - 1) / 2). split; [exact Hq |].
    pose proof (Z.div_mod (n - 1) 2 ltac:(lia)) as Hdm.
    pose proof (Z.mod_pos_bound (n - 1) 2 ltac:(lia)) as Hmb.
    destruct (Z.eq_dec ((n - 1) mod 2) 0) as [H0 | H1]; [lia | exfalso].
    apply (proper_divisor_not_prime n 2); [lia | | exact Hn].
    exists ((n - 1) / 2 + 1). lia.
  - intros [Hn (q & Hq & ->)]. pose proof (Z.prime_ge_2 q Hq) as Hq2.
    replace ((2 * q + 1 - 1) / 2) with q
      by (symmetry; replace (2 * q + 1 - 1) with (q * 2) by lia; apply Z.div_mul; lia).
    split; [split; [lia | exact Hn] | exact Hq].
Qed.

(** X12.  Against the sieve's own set, the twin test only sees partners up
    to the limit: [is_twin_prime n] is true exactly when [n] is a prime up to
    [limit] and [n - 2] is prime or [n + 2] is a prime no larger than
    [limit]. *)
Theorem is_twin_prime_on_sieve (limit n : Z) :
  is_twin_prime n (generate_primes_set limit) = true
  <-> Z.prime n /\ n <= limit
      /\ (Z.prime (n - 2) \/ (Z.prime (n + 2) /\ n + 2 <= limit)).
Proof.
  unfold is_twin_prime.
  rewrite andb_true_iff, orb_true_iff, !bool_decide_eq_true,
    !generate_primes_set_spec.
  split.
  - intros [[Hn Hle] [[Hm _] | Hp]]; auto.
  - intros (Hn & Hle & [Hm | Hp]); split; auto. left. split; [exact Hm | lia].
Qed.

(** ** Happy numbers: the loop decides whether the orbit reaches 1 *)

Section HappyOrbit.

Lemma digit_square_sum_step (n : Z) :
  0 <= n -> digit_square_sum n = Ret (digit_square_step n).
Proof.
  intros Hn. unfold digit_square_sum, digit_square_step.
  rewrite str_nonneg by exact Hn.
  rewrite mapM_int_of_char; [reflexivity |].
  apply digit_values_digits, Forall_nil_2.
Qed.

Lemma digit_square_step_nonneg (n : Z) : 0 <= n -> 0 <= digit_square_step n.
Proof. intros Hn. apply (sum_squares_small (str_fuel n) n Hn). Qed.

Lemma orbit_nonneg (n : Z) (k : nat) :
  0 <= n -> 0 <= Nat.iter k digit_square_step n.
Proof.
  intros Hn. induction k as [| k IH]; [exact Hn |].
  cbn [Nat.iter]. apply digit_square_step_nonneg, IH.
Qed.

(** Once a value repeats, the orbit never leaves the values seen so far. *)
Lemma orbit_trapped (n : Z) (seen : gset Z) (i j : nat) :
  (i < j)%nat ->
  Nat.iter i digit_square_step n = Nat.iter j digit_square_step n ->
  (forall k, (k < j)%nat -> Nat.iter k digit_square_step n ∈ seen) ->
  forall k, Nat.iter k digit_square_step n ∈ seen.
Proof.
  intros Hij Hrep Hseen k.
  induction k as [k IH] using (well_founded_induction lt_wf).
  destruct (le_lt_dec j k) as [Hge | Hlt]; [| apply Hseen, Hlt].
  replace k with ((k - j) + j)%nat by lia.
  rewrite Nat.iter_add, <- Hrep, <- Nat.iter_add.
  apply IH. lia.
Qed.

Lemma happy_loop_orbit (n : Z) (fuel : nat) : forall (j : nat) seen n' seen',
  0 <= n ->
  (forall x, x ∈ seen <-> exists i, (i < j)%nat /\ Nat.iter i digit_square_step n = x) ->
  1 ∉ seen ->
  happy_loop fuel (Nat.iter j digit_square_step n) seen = Ret (n', seen') ->
  n' = 1 <-> exists k, Nat.iter k digit_square_step n = 1.
Proof.
  induction fuel as [| fuel IH]; intros j seen n' seen' Hn Hseen H1 Hrun;
    [discriminate |].
  cbn [happy_loop] in Hrun.
  set (m := Nat.iter j digit_square_step n) in *.
  destruct (decide (m = 1)) as [Hm1 | Hm1].
  - rewrite (bool_decide_eq_false_2 (m ≠ 1)) in Hrun by tauto.
    cbn [andb] in Hrun. injection Hrun as <- <-.
    split; [intros _; exists j; exact Hm1 | intros _; exact Hm1].
  - rewrite (bool_decide_eq_true_2 (m ≠ 1) Hm1) in Hrun. cbn [andb] in Hrun.
    destruct (decide (m ∈ seen)) as [Hin | Hnin].
    + rewrite (bool_decide_eq_false_2 (m ∉ seen)) in Hrun by tauto.
      injection Hrun as <- <-.
      split; [intros Heq; contradiction |].
      intros [k Hk]. exfalso. apply H1. rewrite <- Hk.
      apply Hseen in Hin as (i & Hi & Hrep).
      apply (orbit_trapped n seen i j Hi Hrep).
      intros k' Hk'. apply Hseen. exists k'. split; [exact Hk' | reflexivity].
    + rewrite (bool_decide_eq_true_2 (m ∉ seen) Hnin) in Hrun.
      rewrite digit_square_sum_step in Hrun by (apply orbit_nonneg, Hn).
      cbn [mbind outcome_bind] in Hrun.
      apply (IH (S j) ({[m]} ∪ seen) n' seen' Hn); [| | exact Hrun].
      * intros x. rewrite elem_of_union, elem_of_singleton, Hseen. split.
        -- intros [-> | (i & Hi & Hx)]; [exists j | exists i]; split; auto; lia.
        -- intros (i & Hi & Hx). destruct (decide (i = j)) as [-> | Hne].
           ++ left. symmetry. exact Hx.
           ++ right. exists i. split; [lia | exact Hx].
      * intros Hin. apply elem_of_union in Hin as [Hin | Hin]; [| tauto].
        apply elem_of_singleton in Hin. congruence.
Qed.

End HappyOrbit.

(** X13.  For [n >= 0], [is_happy_number n] returns [True] exactly when
    repeating "sum of the squares of the decimal digits" from [n] reaches 1
    at some step; a repeated value proves that it never will. *)
Theorem is_happy_number_iff_orbit (n : Z) :
  0 <= n ->
  is_happy_number n = Ret true
  <-> exists k, Nat.iter k digit_square_step n = 1.
Proof.
  intros Hn.
  destruct (is_happy_number_returns n Hn) as (n' & seen' & Hrun & _ & Hres).
  rewrite Hres.
  pose proof (happy_loop_orbit n (happy_fuel n) 0 ∅ n' seen' Hn) as Horbit.
  rewrite <- Horbit; [| | apply not_elem_of_empty | exact Hrun].
  - split.
    + intros Heq. injection Heq as Heq. apply Z.eqb_eq, Heq.
    + intros ->. reflexivity.
  - intros x. split.
    + intros Hx. apply not_elem_of_empty in Hx. contradiction.
    + intros (i & Hi & _). lia.
Qed.

Lemma is_happy_number_iff_orbit_witness :
  is_happy_number 19 = Ret true
  <-> exists k, Nat.iter k digit_square_step 19 = 1.
Proof. apply (is_happy_number_iff_orbit 19). lia. Defined.

(** X14.  A negative argument makes [is_happy_number] raise [ValueError]
    ([int("-")] in the digit sum), while [is_happy_prime] never reaches that
    call and answers [False]. *)
Theorem is_happy_number_negative (n : Z) :
  n < 0 ->
  is_happy_number n = Raise ValueError /\ is_happy_prime n = Ret false.
Proof.
  intros Hn. split.
  - unfold is_happy_number, happy_fuel.
    replace (Z.to_nat (Z.max n 243) + 2)%nat with (S (Z.to_nat (Z.max n 243) + 1)) by lia.
    cbn [happy_loop].
    rewrite (bool_decide_eq_true_2 (n ≠ 1)) by lia.
    rewrite (bool_decide_eq_true_2 (n ∉ (∅ : gset Z))) by apply not_elem_of_empty.
    cbn [andb]. unfold digit_square_sum, Py.str.
    assert (Hneg : (n <? 0) = true) by (apply Z.ltb_lt; exact Hn).
    rewrite Hneg. reflexivity.
  - unfold is_happy_prime.
    assert (Hp : is_prime n = false).
    { unfold is_prime. assert (H1 : (n <=? 1) = true) by (apply Z.leb_le; lia).
      rewrite H1. reflexivity. }
    rewrite Hp. reflexivity.
Qed.

Lemma is_happy_number_negative_witness :
  is_happy_number (-7) = Raise ValueError /\ is_happy_prime (-7) = Ret false.
Proof. apply (is_happy_number_negative (-7)). lia. Defined.

(** ** Labels that [classify_prime] can produce *)

Section Labels.

Lemma first_true_label_elem (rules : list rule) (n : Z) (primes_set : gset Z)
      (label : string) :
  first_true_label rules n primes_set label ->
  label ∈ rules.*1 ++ ["regular_prime"%string].
Proof.
  intros [(before & r & after & -> & _ & _ & ->) | [_ ->]].
  - apply elem_of_app. left. rewrite fmap_app, fmap_cons.
    apply elem_of_app. right. apply elem_of_cons. left. reflexivity.
  - apply elem_of_app. right. apply list_elem_of_singleton. reflexivity.
Qed.

(** A prime of the set that is not twin is isolated. *)
Lemma not_twin_isolated (n : Z) (primes_set : gset Z) :
  is_prime n = true -> n ∈ primes_set ->
  is_twin_prime n primes_set = false ->
  is_isolated_prime n primes_set = true.
Proof.
  intros Hn Hin. unfold is_isolated_prime, is_twin_prime.
  rewrite Hn, (bool_decide_eq_true_2 _ Hin). cbn [andb].
  destruct (bool_decide (n - 2 ∈ primes_set)), (bool_decide (n + 2 ∈ primes_set));
    cbn; congruence.
Qed.

End Labels.

(** X15.  [classify_prime] never raises, whatever integer and set it is
    given, and its result is always one of the fifteen labels. *)
Theorem classify_prime_label_range (n : Z) (primes_set : gset Z) :
  exists label,
    classify_prime n primes_set = Ret label
    /\ label ∈ [ "mersenne_prime"; "factorial_prime"; "wieferich_prime";
                 "fibonacci_prime"; "twin_prime"; "sexy_prime";
                 "isolated_prime"; "safe_prime"; "sophie_germain_prime";
                 "chen_prime"; "palindromic_prime"; "circular_prime";
                 "cuban_prime"; "happy_prime"; "regular_prime" ]%string.
Proof.
  destruct (classify_prime_returns n primes_set) as [label Hlabel].
  exists label. split; [exact Hlabel |].
  apply (first_true_label_elem rule_table n primes_set).
  apply first_match_spec. rewrite <- classify_prime_first_match. exact Hlabel.
Qed.

Lemma classify_prime_member_labels_aux (n : Z) (primes_set : gset Z) :
  is_prime n = true -> n ∈ primes_set ->
  exists label,
    classify_prime n primes_set = Ret label
    /\ label ∈ [ "mersenne_prime"; "factorial_prime"; "wieferich_prime";
                 "fibonacci_prime"; "twin_prime"; "sexy_prime";
                 "isolated_prime" ]%string.
Proof.
  intros Hn Hin. unfold classify_prime.
  destruct (is_mersenne_prime n);
    [eexists; split; [reflexivity | set_solver] |].
  destruct (is_factorial_prime n);
    [eexists; split; [reflexivity | set_solver] |].
  destruct (is_wieferich_prime n);
    [eexists; split; [reflexivity | set_solver] |].
  destruct (is_fibonacci_prime n);
    [eexists; split; [reflexivity | set_solver] |].
  destruct (is_twin_prime n primes_set) eqn:Htwin;
    [eexists; split; [reflexivity | set_solver] |].
  destruct (is_sexy_prime n primes_set);
    [eexists; split; [reflexivity | set_solver] |].
  rewrite (not_twin_isolated n primes_set Hn Hin Htwin).
  eexists. split; [reflexivity | set_solver].
Qed.

(** X16.  For a prime that belongs to the set it is classified against, the
    chain never gets past the isolated test: the result is one of the first
    seven labels, never ["safe_prime"] or a later one, and never
    ["regular_prime"]. *)
Theorem classify_prime_member_labels (n : Z) (primes_set : gset Z) :
  is_prime n = true -> n ∈ primes_set ->
  exists label,
    classify_prime n primes_set = Ret label
    /\ label ∈ [ "mersenne_prime"; "factorial_prime"; "wieferich_prime";
                 "fibonacci_prime"; "twin_prime"; "sexy_prime";
                 "isolated_prime" ]%string.
Proof. apply classify_prime_member_labels_aux. Qed.

Lemma classify_prime_member_labels_witness :
  exists label,
    classify_prime 47 (generate_primes_set 100) = Ret label
    /\ label ∈ [ "mersenne_prime"; "factorial_prime"; "wieferich_prime";
                 "fibonacci_prime"; "twin_prime"; "sexy_prime";
                 "isolated_prime" ]%string.
Proof.
  apply (classify_prime_member_labels 47 (generate_primes_set 100)).
  - vm_compute. reflexivity.
  - apply (bool_decide_unpack _). vm_compute. exact I.
Defined.

(** ** What the grid pass returns *)

Section GridResult.

Lemma grid_loop_zero_columns (primes_set : gset Z) (pos : Z) (positions : list Z)
      (prime_points : list point) :
  grid_loop 0 primes_set (pos :: positions) prime_points = Raise ZeroDivisionError.
Proof. reflexivity. Qed.

(** Whenever the pass returns, the positions of its points are the prime
    positions of the grid, in order. *)
Lemma create_prime_grid_inv (bound columns rows : Z) (prime_points : list point) :
  create_prime_grid bound columns rows = Ret prime_points ->
  point_position columns <$> prime_points = prime_positions bound
  /\ Forall (point_ok columns (generate_primes_set bound)) prime_points.
Proof.
  intros Hrun. destruct (Z.eq_dec columns 0) as [-> | Hc].
  - unfold create_prime_grid, prime_positions, Py.range2 in *.
    destruct (Z_le_gt_dec (bound - 0) 0) as [Hle | Hgt].
    + rewrite seqZ_nil in * by exact Hle. cbn in Hrun.
      injection Hrun as <-. split; [reflexivity | apply Forall_nil_2].
    + rewrite seqZ_cons in Hrun by lia.
      rewrite grid_loop_zero_columns in Hrun. discriminate.
  - destruct (create_prime_grid_spec bound columns rows Hc) as (pts & Hpts & Hpos & Hok).
    rewrite Hpts in Hrun. injection Hrun as <-. split; assumption.
Qed.

Lemma point_in_prime_positions (bound columns : Z) (prime_points : list point)
      (pt : point) :
  point_position columns <$> prime_points = prime_positions bound ->
  pt ∈ prime_points ->
  Z.prime (point_position columns pt) /\ 0 <= point_position columns pt < bound.
Proof.
  intros Hpos Hin.
  assert (Hp : point_position columns pt ∈ prime_positions bound).
  { rewrite <- Hpos. apply list_elem_of_fmap_2, Hin. }
  apply elem_of_prime_positions in Hp as [Hp Hlt].
  pose proof (Z.prime_ge_2 _ Hp). split; [exact Hp | lia].
Qed.

End GridResult.

(** X17.  Every point returned by [create_prime_grid] carries one of the
    first seven labels: in the grid pass the tests from safe prime on, and the
    ["regular_prime"] fallback, are never reached. *)
Theorem create_prime_grid_labels (bound columns rows : Z) (prime_points : list point) :
  create_prime_grid bound columns rows = Ret prime_points ->
  Forall (fun pt : point =>
            pt.2 ∈ [ "mersenne_prime"; "factorial_prime"; "wieferich_prime";
                     "fibonacci_prime"; "twin_prime"; "sexy_prime";
                     "isolated_prime" ]%string) prime_points.
Proof.
  intros Hrun. destruct (create_prime_grid_inv _ _ _ _ Hrun) as [Hpos Hok].
  apply Forall_forall. intros pt Hin.
  rewrite Forall_forall in Hok. destruct (Hok pt Hin) as (_ & _ & Hclass).
  destruct (point_in_prime_positions _ _ _ _ Hpos Hin) as [Hp Hrange].
  destruct (classify_prime_member_labels_aux (point_position columns pt)
              (generate_primes_set bound)) as (label & Hlabel & Hmem).
  - apply is_prime_spec, Hp.
  - apply generate_primes_set_spec. split; [exact Hp | lia].
  - rewrite Hlabel in Hclass. injection Hclass as <-. exact Hmem.
Qed.

Lemma create_prime_grid_labels_witness :
  Forall (fun pt : point =>
            pt.2 ∈ [ "mersenne_prime"; "factorial_prime"; "wieferich_prime";
                     "fibonacci_prime"; "twin_prime"; "sexy_prime";
                     "isolated_prime" ]%string)
         [(2, 0, "factorial_prime"); (0, 1, "mersenne_prime");
          (2, 1, "factorial_prime"); (1, 2, "mersenne_prime");
          (2, 3, "twin_prime"); (1, 4, "fibonacci_prime")]%string.
Proof.
  apply (create_prime_grid_labels 15 3 5). vm_compute. reflexivity.
Defined.

(** X18.  For a grid of [columns > 0] by [rows], every point returned by
    [create_prime_grid (columns * rows) columns rows] lies inside the grid:
    [0 <= x < columns] and [0 <= y < rows]. *)
Theorem create_prime_grid_in_bounds (columns rows : Z) (prime_points : list point) :
  0 < columns ->
  create_prime_grid (columns * rows) columns rows = Ret prime_points ->
  Forall (fun pt : point => 0 <= pt.1.1 < columns /\ 0 <= pt.1.2 < rows)
         prime_points.
Proof.
  intros Hc Hrun. destruct (create_prime_grid_inv _ _ _ _ Hrun) as [Hpos Hok].
  apply Forall_forall. intros pt Hin.
  rewrite Forall_forall in Hok. destruct (Hok pt Hin) as (Hx & Hy & _).
  destruct (point_in_prime_positions _ _ _ _ Hpos Hin) as [_ Hrange].
  cbv zeta in Hx, Hy. rewrite Hx, Hy.
  pose proof (Z.mod_pos_bound (point_position columns pt) columns Hc).
  split; [lia |]. split.
  - apply Z.div_pos; lia.
  - apply Z.div_lt_upper_bound; lia.
Qed.

Lemma create_prime_grid_in_bounds_witness :
  Forall (fun pt : point => 0 <= pt.1.1 < 5 /\ 0 <= pt.1.2 < 4)
         [(2, 0, "factorial_prime"); (3, 0, "mersenne_prime");
          (0, 1, "factorial_prime"); (2, 1, "mersenne_prime");
          (1, 2, "twin_prime"); (3, 2, "fibonacci_prime");
          (2, 3, "twin_prime"); (4, 3, "twin_prime")]%string.
Proof.
  apply (create_prime_grid_in_bounds 5 4); [lia | vm_compute; reflexivity].
Defined.

(** X19.  The points come in ascending position order: the linear positions
    [y * columns + x] of the returned list are strictly increasing. *)
Theorem create_prime_grid_ordered (bound columns rows : Z) (prime_points : list point) :
  create_prime_grid bound columns rows = Ret prime_points ->
  StronglySorted Z.lt (point_position columns <$> prime_points).
Proof.
  intros Hrun. destruct (create_prime_grid_inv _ _ _ _ Hrun) as [Hpos _].
  rewrite Hpos. unfold prime_positions, Py.range2. apply filter_sorted.
  destruct (Z_lt_le_dec (bound - 0) 0) as [Hneg | Hnn].
  - rewrite seqZ_nil by lia. constructor.
  - rewrite <- (Z2Nat.id (bound - 0)) by lia. apply seqZ_sorted.
Qed.

Lemma create_prime_grid_ordered_witness :
  StronglySorted Z.lt
    (point_position 5 <$> [(2, 0, "factorial_prime"); (3, 0, "mersenne_prime");
                           (0, 1, "factorial_prime"); (2, 1, "mersenne_prime")]%string).
Proof.
  apply (create_prime_grid_ordered 10 5 2). vm_compute. reflexivity.
Defined.

(** X20.  With [columns = 0] the grid pass raises [ZeroDivisionError] at its
    first position when there is one, and returns the empty list when
    [total_positions <= 0]. *)
Theorem create_prime_grid_zero_columns (total_positions rows : Z) :
  (0 < total_positions ->
   create_prime_grid total_positions 0 rows = Raise ZeroDivisionError)
  /\ (total_positions <= 0 ->
      forall columns, create_prime_grid total_positions columns rows = Ret []).
Proof.
  unfold create_prime_grid, Py.range2. split.
  - intros Hpos. rewrite seqZ_cons by lia. apply grid_loop_zero_columns.
  - intros Hle columns. rewrite seqZ_nil by lia. reflexivity.
Qed.

(** ** Statistics *)

Section Statistics.

(** Number of points that carry a label. *)
Lemma count_type_lookup (prime_points : list point) (label : string) :
  forall prime_types : gmap string Z,
    foldl count_type prime_types prime_points !! label
    = if decide (filter (fun pt : point => pt.2 = label) prime_points = [])
      then prime_types !! label
      else Some (default 0 (prime_types !! label)
                 + Z.of_nat (length (filter (fun pt : point => pt.2 = label)
                                            prime_points))).
Proof.
  induction prime_points as [| pt pts IH]; intros prime_types; [reflexivity |].
  cbn [foldl]. rewrite IH. unfold count_type. rewrite filter_cons.
  destruct (decide (pt.2 = label)) as [Heq | Hne].
  - rewrite Heq, lookup_insert_eq. cbn [default length].
    destruct (decide (filter _ pts = [])) as [Hnil | Hcons].
    + rewrite Hnil. destruct (decide (pt :: [] = [])); [discriminate |].
      f_equal.
    + destruct (decide (pt :: filter _ pts = [])); [discriminate |].
      f_equal. cbv [id]. lia.
  - rewrite lookup_insert_ne by exact Hne. reflexivity.
Qed.

End Statistics.

(** X21.  In the statistics, [prime_types] maps each label to the number of
    points that carry it and has no entry for a label that no point carries;
    so the counts add up to [total_primes]. *)
Theorem generate_statistics_counts (prime_points : list point)
        (columns rows dot_size spacing : Z) (stats : statistics) (label : string) :
  generate_statistics prime_points columns rows dot_size spacing = Ret stats ->
  let carrying := filter (fun pt : point => pt.2 = label) prime_points in
  (carrying = [] -> prime_types stats !! label = None)
  /\ (carrying <> [] -> prime_types stats !! label = Some (Z.of_nat (length carrying)))
  /\ total_primes stats = Z.of_nat (length prime_points).
Proof.
  unfold generate_statistics, calculate_dimensions.
  destruct (columns * rows =? 0); [discriminate |].
  intros Hst. injection Hst as <-. cbn [prime_types total_primes].
  rewrite count_type_lookup.
  destruct (decide (filter _ prime_points = [])) as [Hnil | Hcons].
  - split; [intros _; apply lookup_empty |]. split; [tauto | reflexivity].
  - split; [tauto |]. split; [| reflexivity].
    intros _. rewrite lookup_empty. reflexivity.
Qed.

Lemma generate_statistics_counts_witness :
  exists stats,
    generate_statistics [(2, 0, "a"); (3, 0, "b"); (0, 1, "a")]%string 2 2 8 2
    = Ret stats
    /\ prime_types stats !! "a"%string = Some 2.
Proof.
  eexists. split; [reflexivity |].
  apply (generate_statistics_counts
           [(2, 0, "a"); (3, 0, "b"); (0, 1, "a")]%string 2 2 8 2 _ "a"%string
           eq_refl).
  discriminate.
Defined.

(** X22.  An empty grid breaks the statistics, not the grid pass: when
    [columns * rows = 0] the pass returns the empty list and
    [generate_statistics] raises [ZeroDivisionError] on the density; for any
    other size the statistics are produced. *)
Theorem empty_grid_statistics (columns rows dot_size spacing : Z)
        (prime_points : list point) :
  (columns * rows = 0 ->
   create_prime_grid (columns * rows) columns rows = Ret []
   /\ generate_statistics prime_points columns rows dot_size spacing
      = Raise ZeroDivisionError)
  /\ (columns * rows <> 0 ->
      exists stats,
        generate_statistics prime_points columns rows dot_size spacing = Ret stats).
Proof.
  split.
  - intros H0. split.
    + rewrite H0. reflexivity.
    + unfold generate_statistics, calculate_dimensions. rewrite H0. reflexivity.
  - apply generate_statistics_returns.
Qed.

(** ** The dots of the picture *)

Section Drawing.

Lemma grid_point_coordinates (columns rows : Z) (prime_points : list point)
      (pt : point) :
  0 < columns ->
  create_prime_grid (columns * rows) columns rows = Ret prime_points ->
  pt ∈ prime_points ->
  0 <= pt.1.1 <= columns - 1 /\ 0 <= pt.1.2 <= rows - 1.
Proof.
  intros Hc Hrun Hin. destruct (create_prime_grid_inv _ _ _ _ Hrun) as [Hpos Hok].
  rewrite Forall_forall in Hok. destruct (Hok pt Hin) as (Hx & Hy & _).
  destruct (point_in_prime_positions _ _ _ _ Hpos Hin) as [_ Hrange].
  cbv zeta in Hx, Hy. rewrite Hx, Hy.
  pose proof (Z.mod_pos_bound (point_position columns pt) columns Hc).
  assert (Hq : point_position columns pt / columns < rows)
    by (apply Z.div_lt_upper_bound; lia).
  assert (Hq0 : 0 <= point_position columns pt / columns)
    by (apply Z.div_pos; lia).
  lia.
Qed.

End Drawing.

(** X23.  Every dot is drawn inside the picture: for a grid of
    [columns > 0] by [rows] with non-negative [dot_size] and [spacing], each
    ellipse of [draw_visualization] has a box of side [dot_size] that starts
    at or after 0 and ends at or before the image width and height computed
    by [calculate_dimensions]; there is one ellipse per point. *)
Theorem drawn_dots_inside_image (columns rows dot_size spacing : Z)
        (colors : gmap string (list Z)) (prime_points : list point) :
  0 < columns -> 0 <= dot_size -> 0 <= spacing ->
  create_prime_grid (columns * rows) columns rows = Ret prime_points ->
  let dims := calculate_dimensions columns rows dot_size spacing in
  let dots := draw_visualization_ellipses prime_points dot_size spacing colors in
  length dots = length prime_points
  /\ Forall (fun e : ellipse =>
               0 <= box_x0 e /\ box_x1 e = box_x0 e + dot_size
               /\ box_x1 e <= dims.1.1
               /\ 0 <= box_y0 e /\ box_y1 e = box_y0 e + dot_size
               /\ box_y1 e <= dims.1.2) dots.
Proof.
  intros Hc Hd Hs Hrun. cbv zeta.
  unfold draw_visualization_ellipses, calculate_dimensions. cbn [fst snd].
  split; [apply length_fmap |].
  apply Forall_fmap, Forall_forall. intros pt Hin.
  destruct (grid_point_coordinates columns rows prime_points pt Hc Hrun Hin)
    as [Hx Hy].
  unfold draw_dot. cbv zeta. cbn [box_x0 box_x1 box_y0 box_y1].
  set (step := dot_size + spacing).
  assert (Hstep : 0 <= step) by (unfold step; lia).
  assert (Hx0 : 0 <= pt.1.1 * step) by (apply Z.mul_nonneg_nonneg; lia).
  assert (Hy0 : 0 <= pt.1.2 * step) by (apply Z.mul_nonneg_nonneg; lia).
  assert (Hx1 : pt.1.1 * step <= (columns - 1) * step)
    by (apply Z.mul_le_mono_nonneg_r; lia).
  assert (Hy1 : pt.1.2 * step <= (rows - 1) * step)
    by (apply Z.mul_le_mono_nonneg_r; lia).
  rewrite Z.mul_sub_distr_r, Z.mul_1_l in Hx1, Hy1.
  unfold step in *. unfold compose. cbn [box_x0 box_x1 box_y0 box_y1].
  repeat split; lia.
Qed.

Lemma drawn_dots_inside_image_witness :
  let dots := draw_visualization_ellipses
                [(2, 0, "factorial_prime"); (0, 1, "mersenne_prime");
                 (2, 1, "factorial_prime")]%string 8 2 ∅ in
  length dots = 3%nat
  /\ Forall (fun e : ellipse =>
               0 <= box_x0 e /\ box_x1 e = box_x0 e + 8
               /\ box_x1 e <= (calculate_dimensions 3 2 8 2).1.1
               /\ 0 <= box_y0 e /\ box_y1 e = box_y0 e + 8
               /\ box_y1 e <= (calculate_dimensions 3 2 8 2).1.2) dots.
Proof.
  apply (drawn_dots_inside_image 3 2 8 2 ∅); [lia | lia | lia |].
  vm_compute. reflexivity.
Defined.

(** ** Merging configuration updates *)

Section Config.




Lemma dict_set_keys (key : string) (value : yaml) (items : list (string * yaml)) :
  (dict_set key value items).*1
  = if decide (key ∈ items.*1) then items.*1 else items.*1 ++ [key].
Proof.
  induction items as [| [k v] items IH]; cbn [dict_set].
  - rewrite decide_False by apply not_elem_of_nil. reflexivity.
  - destruct (decide (k = key)) as [-> | Hne].
    + rewrite decide_True by (rewrite fmap_cons; apply elem_of_cons; left; reflexivity).
      reflexivity.
    + rewrite !fmap_cons, IH. cbn [fst].
      destruct (decide (key ∈ items.*1)) as [Hin | Hnin].
      * rewrite decide_True by (apply elem_of_cons; right; exact Hin). reflexivity.
      * rewrite decide_False; [reflexivity |].
        rewrite not_elem_of_cons. split; [congruence | exact Hnin].
Qed.


Lemma update_dict_cons (target source : list (string * yaml)) (k : string) (v : yaml) :
  update_dict target ((k, v) :: source)
  = update_dict (dict_set k (merge_value v (dict_get k target)) target) source.
Proof. reflexivity. Qed.


Lemma update_dict_keys (source : list (string * yaml)) :
  forall target : list (string * yaml),
    NoDup source.*1 ->
    (update_dict target source).*1
    = target.*1 ++ filter (fun k => k ∉ target.*1) source.*1.
Proof.
  induction source as [| [k v] source IH]; intros target Hnd.
  - cbn. rewrite app_nil_r. reflexivity.
  - rewrite fmap_cons in Hnd. apply NoDup_cons in Hnd as [Hk Hnd]. cbn [fst] in Hk.
    rewrite update_dict_cons, IH by exact Hnd.
    rewrite dict_set_keys, fmap_cons, filter_cons. cbn [fst].
    destruct (decide (k ∈ target.*1)) as [Hin | Hnin].
    + rewrite decide_False by tauto. reflexivity.
    + rewrite decide_True by exact Hnin. rewrite <- app_assoc. cbn [app].
      f_equal. f_equal. apply filter_agree.
      intros x Hx. rewrite not_elem_of_app, list_elem_of_singleton.
      split; [tauto |]. intros Hxt. split; [exact Hxt | congruence].
Qed.

End Config.



(** X25.  [update_config] never removes or reorders a key: the keys of the
    result are the keys of the configuration, in their order, followed by the
    new keys of the updates in the updates' order. *)
Theorem update_config_keys (config updates : list (string * yaml)) :
  NoDup updates.*1 ->
  (update_config config updates).*1
  = config.*1 ++ filter (fun k => k ∉ config.*1) updates.*1.
Proof. intros Hnd. apply update_dict_keys, Hnd. Qed.

Lemma update_config_keys_witness :
  (update_config [("grid", YInt 1); ("colors", YInt 2)]%string
                 [("application", YInt 3); ("grid", YInt 4)]%string).*1
  = ["grid"; "colors"; "application"]%string.
Proof.
  apply (update_config_keys [("grid", YInt 1); ("colors", YInt 2)]
                            [("application", YInt 3); ("grid", YInt 4)])%string.
  apply (bool_decide_unpack _). vm_compute. exact I.
Defined.

(** ** The sieve of the first script *)

Section LegacySieve.

Lemma list_item_in_range (primes : list bool) (i : Z) :
  0 <= i < Z.of_nat (length primes) ->
  list_item primes i = Done (sieve_at primes i).
Proof.
  intros Hi. unfold list_item, sieve_at.
  assert (Hneg : (i <? 0) = false) by (apply Z.ltb_ge; lia).
  rewrite !Hneg.
  destruct (lookup_lt_is_Some_2 primes (Z.to_nat i) ltac:(lia)) as [b ->].
  reflexivity.
Qed.

Lemma list_store_in_range {A : Type} (l : list A) (i : Z) (v : A) :
  0 <= i < Z.of_nat (length l) ->
  list_store l i v = Done (<[Z.to_nat i := v]> l).
Proof.
  intros Hi. unfold list_store.
  assert (Hneg : (i <? 0) = false) by (apply Z.ltb_ge; lia).
  assert (Hlen : (Z.of_nat (length l) <=? i) = false) by (apply Z.leb_gt; lia).
  rewrite !Hneg, Hlen. reflexivity.
Qed.

(** Inside the array, the stores of the inner loop all succeed. *)
Lemma clear_multiples_done (indices : list Z) : forall primes : list bool,
  Forall (fun j => 0 <= j < Z.of_nat (length primes)) indices ->
  clear_multiples primes indices
  = Done (foldl (fun s j => <[Z.to_nat j := false]> s) primes indices).
Proof.
  induction indices as [| j indices IH]; intros primes Hin; [reflexivity |].
  apply Forall_cons in Hin as [Hj Hin].
  cbn [clear_multiples foldl]. rewrite list_store_in_range by exact Hj.
  cbn [mbind run_bind]. apply IH.
  rewrite length_insert. exact Hin.
Qed.

(** The values of [range(c * i, limit + 1, i)]. *)
Lemma elem_of_range3_multiples (limit i c m : Z) :
  0 < i ->
  m ∈ Py.range3 (c * i) (limit + 1) i <-> c * i <= m <= limit /\ (i | m).
Proof.
  intros Hi. unfold Py.range3. rewrite list_elem_of_fmap. split.
  - intros (k & -> & Hk). apply elem_of_seqZ in Hk.
    assert (Hb : i * (k + 1) <= limit + 1 - c * i + i - 1).
    { etransitivity; [| apply (Z.mul_div_le _ i Hi)].
      apply Z.mul_le_mono_nonneg_l; lia. }
    split; [nia | exists (c + k); lia].
  - intros [Hm [q Hq]]. exists (q - c). split; [lia |].
    apply elem_of_seqZ.
    assert (Hqc : c <= q) by nia.
    split; [lia |].
    assert (Hb : q - c + 1 <= (limit + 1 - c * i + i - 1) / i).
    { apply Z.div_le_lower_bound; [exact Hi | nia]. }
    lia.
Qed.

Lemma gen_primes_inv_init (n : Z) :
  0 <= n -> gen_primes_inv n 2 (replicate (Z.to_nat (n + 1)) true).
Proof.
  intros Hn. split; [apply length_replicate |].
  intros m Hm. unfold sieve_at.
  rewrite lookup_replicate_2 by lia. split; [intros _ d Hd; lia | discriminate].
Qed.

Lemma gen_primes_inv_round (n k : Z) (s : list bool) :
  2 <= k -> k * k <= n -> gen_primes_inv n k s ->
  exists s',
    (flag ← list_item s k;
     if flag : bool then clear_multiples s (Py.range3 (k * 2) (n + 1) k)
     else Done s) = Done s'
    /\ gen_primes_inv n (k + 1) s'.
Proof.
  intros Hk Hkk [Hlen Hinv].
  assert (Hkn : 0 <= k <= n) by nia.
  rewrite list_item_in_range by lia. cbn [mbind run_bind].
  destruct (sieve_at s k) eqn:Hsk.
  - rewrite clear_multiples_done.
    2:{ apply Forall_forall. intros j Hj.
        rewrite (Z.mul_comm k 2) in Hj.
        apply elem_of_range3_multiples in Hj as [Hj _]; lia. }
    eexists. split; [reflexivity |].
    split; [rewrite clear_cells_length; exact Hlen |].
    intros m Hm. destruct (Hinv m Hm) as [Ht Hf].
    assert (Hcell : sieve_at (foldl (fun s j => <[Z.to_nat j := false]> s) s
                                    (Py.range3 (k * 2) (n + 1) k)) m = true
                    <-> sieve_at s m = true /\ ~ (2 * k <= m <= n /\ (k | m))).
    { rewrite clear_cells_spec; [| | lia].
      - rewrite (Z.mul_comm k 2), elem_of_range3_multiples by lia. reflexivity.
      - apply Forall_forall. intros j Hj. rewrite (Z.mul_comm k 2) in Hj.
        apply elem_of_range3_multiples in Hj as [Hj _]; lia. }
    split.
    + intros Hs. apply Hcell in Hs as [Hs Hnot].
      intros d Hd Hdd Hdiv. destruct (decide (d = k)) as [-> | Hne].
      * apply Hnot. split; [lia | exact Hdiv].
      * apply (Ht Hs d); [lia | exact Hdd | exact Hdiv].
    + intros Hs. destruct (sieve_at s m) eqn:Hsm.
      * exists k.
        destruct (Z_le_gt_dec (2 * k) m) as [Hle | Hgt];
          [destruct (Z.BoolSpec_divide k m) as [Hdiv | Hndiv] |].
        -- split; [lia | split; assumption].
        -- exfalso. assert (Hc : sieve_at (foldl (fun s j => <[Z.to_nat j := false]> s) s
                                            (Py.range3 (k * 2) (n + 1) k)) m = true)
             by (apply Hcell; split; [reflexivity | tauto]).
           congruence.
        -- exfalso. assert (Hc : sieve_at (foldl (fun s j => <[Z.to_nat j := false]> s) s
                                            (Py.range3 (k * 2) (n + 1) k)) m = true)
             by (apply Hcell; split; [reflexivity | lia]).
           congruence.
      * destruct (Hf eq_refl) as (d & Hd & Hdd & Hdiv).
        exists d. split; [lia | split; assumption].
  - exists s. split; [reflexivity |]. split; [exact Hlen |].
    intros m Hm. destruct (Hinv m Hm) as [Ht Hf]. split.
    + intros Hs d Hd Hdd Hdiv. destruct (decide (d = k)) as [-> | Hne].
      * destruct (Hinv k Hkn) as [_ Hfk].
        destruct (Hfk Hsk) as (e & He & Hee & Hediv).
        apply (Ht Hs e); [lia | lia |].
        apply Z.divide_trans with k; assumption.
      * apply (Ht Hs d); [lia | exact Hdd | exact Hdiv].
    + intros Hs. destruct (Hf Hs) as (d & Hd & Hdd & Hdiv).
      exists d. split; [lia | split; assumption].
Qed.

Lemma gen_primes_loop_spec (n : Z) (fuel : nat) : forall k s,
  2 <= k -> (1 <= fuel)%nat -> Z.sqrt n < k + Z.of_nat fuel - 1 ->
  gen_primes_inv n k s ->
  exists k' s',
    gen_primes_loop fuel n k s = Done s'
    /\ 2 <= k' /\ n < k' * k' /\ gen_primes_inv n k' s'.
Proof.
  induction fuel as [| fuel IH]; intros k s Hk Hpos Hfuel Hinv; [lia |].
  cbn [gen_primes_loop]. destruct (k * k <=? n) eqn:Hkk.
  - apply Z.leb_le in Hkk.
    assert (Hle : k <= Z.sqrt n) by (apply Z.sqrt_le_square; nia).
    destruct (gen_primes_inv_round n k s Hk Hkk Hinv) as (s' & Hround & Hinv').
    destruct (list_item s k) as [flag | e |]; cbn [mbind run_bind] in Hround |- *;
      try discriminate.
    rewrite Hround. cbn [mbind run_bind].
    apply IH; [lia | lia | lia | exact Hinv'].
  - apply Z.leb_gt in Hkk. exists k, s. auto.
Qed.

End LegacySieve.

(** X26.  For [n >= 1] the sieve of the first script returns an array of
    [n + 1] flags in which cell [m] is set exactly when [m] is prime, that is,
    exactly when [m] is in the list [generate_primes n] of the package: the
    two sieves agree although this one clears from [2p] and fixes the cells 0
    and 1 last. *)
Theorem gen_primes_agrees (n : Z) :
  1 <= n ->
  exists primes,
    gen_primes n = Done primes
    /\ length primes = Z.to_nat (n + 1)
    /\ forall m, 0 <= m <= n ->
         (primes !! Z.to_nat m = Some true <-> Z.prime m)
         /\ (primes !! Z.to_nat m = Some true <-> m ∈ generate_primes n).
Proof.
  intros Hn. unfold gen_primes. cbv zeta.
  destruct (gen_primes_loop_spec n (S (Z.to_nat (Z.sqrt n))) 2
              (replicate (Z.to_nat (n + 1)) true))
    as (k & s & Hrun & Hk & Hkk & Hlen & Hinv).
  { lia. } { lia. } { pose proof (Z.sqrt_nonneg n). lia. }
  { apply gen_primes_inv_init. lia. }
  rewrite Hrun. cbn [mbind run_bind].
  rewrite list_store_in_range by lia. cbn [mbind run_bind].
  rewrite list_store_in_range by (rewrite length_insert; lia).
  eexists. split; [reflexivity |].
  split; [rewrite !length_insert; exact Hlen |].
  intros m Hm.
  set (final := <[Z.to_nat 1 := false]> (<[Z.to_nat 0 := false]> s)).
  assert (Hread : final !! Z.to_nat m = Some true <-> sieve_at final m = true).
  { unfold sieve_at. destruct (final !! Z.to_nat m) as [[] |];
      split; congruence. }
  assert (Hcell : sieve_at final m = true <-> sieve_at s m = true /\ 2 <= m).
  { unfold final. rewrite !sieve_at_insert_false by lia.
    rewrite !andb_true_iff, !negb_true_iff, !Z.eqb_neq.
    split; [intros [[Hs H0] H1]; split; [exact Hs | lia]
           | intros [Hs Hm2]; split; [split; [exact Hs | lia] | lia]]. }
  assert (Hprime : final !! Z.to_nat m = Some true <-> Z.prime m).
  { rewrite Hread, Hcell. destruct (Hinv m Hm) as [Ht Hf]. split.
    - intros [Hs Hm2]. apply no_small_divisor_prime; [exact Hm2 |].
      intros d Hd Hdd. apply (Ht Hs d); nia.
    - intros Hp. pose proof (Z.prime_ge_2 m Hp) as Hm2. split; [| exact Hm2].
      destruct (sieve_at s m) eqn:Hs; [reflexivity | exfalso].
      destruct (Hf eq_refl) as (d & Hd & Hdd & Hdiv).
      apply (proper_divisor_not_prime m d); [lia | exact Hdiv | exact Hp]. }
  split; [exact Hprime |].
  rewrite Hprime, generate_primes_spec. split; [intros Hp; split; [exact Hp | lia] | tauto].
Qed.

Lemma gen_primes_agrees_witness :
  exists primes,
    gen_primes 20 = Done primes
    /\ length primes = 21%nat
    /\ (primes !! Z.to_nat 19 = Some true <-> 19 ∈ generate_primes 20).
Proof.
  destruct (gen_primes_agrees 20 ltac:(lia)) as (primes & Hrun & Hlen & Hcells).
  exists primes. split; [exact Hrun | split; [exact Hlen |]].
  apply (Hcells 19). lia.
Defined.

(** X27.  For [n <= 0] the first script's sieve raises [IndexError]: the
    array has at most one cell and the final [self.primes[1] = False] (or
    [self.primes[0] = False] when [n < 0]) is out of range. *)
Theorem gen_primes_small_index_error (n : Z) :
  n <= 0 -> gen_primes n = Failed PyIndexError.
Proof.
  intros Hn. unfold gen_primes. cbv zeta.
  assert (Hs : Z.sqrt n = 0).
  { destruct (Z.eq_dec n 0) as [-> | Hne]; [reflexivity | apply Z.sqrt_neg; lia]. }
  rewrite Hs. cbn [Z.to_nat gen_primes_loop].
  assert (Hloop : (2 * 2 <=? n) = false) by (apply Z.leb_gt; lia).
  rewrite Hloop. cbn [mbind run_bind].
  destruct (Z.eq_dec n 0) as [-> | Hne]; [reflexivity |].
  replace (Z.to_nat (n + 1)) with 0%nat by lia. reflexivity.
Qed.

Lemma gen_primes_small_index_error_witness :
  gen_primes 0 = Failed PyIndexError.
Proof. apply (gen_primes_small_index_error 0). lia. Defined.
